(** * Tic-tac-toe with a minimax opponent: the game logic of [script.js]

    A shallow embedding of the classes [GameConfig], [AIPlayer],
    [GameState], [GameLogic] and [TicTacToeGame], and the properties of
    the board rules, of the minimax search and of the session controller.

    The presentation layer ([UIController], the DOM) and the storage of
    the scores are outside the model: they only display state held by the
    classes above. The one call of the presentation layer that the course
    of a handler depends on is [updateCell], which throws for an index
    that has no cell on the page; the model has it. *)

From stdpp Require Import base decidable option list numbers strings pmap.
From Stdlib Require Import ZArith Lia.

Open Scope Z_scope.

(** ** Values held by the cells of a board *)

(** The two symbols, the strings "X" and "O" of the source. *)
Inductive mark := X | O.

#[global] Instance mark_eq_dec : EqDecision mark.
Proof. solve_decision. Defined.

(** What reading [board[i]] can give: [undefined] (past the end of the
    array, or a hole left by a write past the end), [null] (an empty
    cell), or a symbol. *)
Inductive value := undefined | null | str (m : mark).

#[global] Instance value_eq_dec : EqDecision value.
Proof. solve_decision. Defined.

(** A board is a JavaScript array; a hole reads as [undefined], and is
    stored as such. *)
Abbreviation board := (list value).

(** [board[i]] *)
Definition get (b : board) (i : nat) : value := default undefined (b !! i).

(** [board[i] = v]: in place below [board.length]; past the end the array
    grows, the cells in between being holes. *)
Definition set (b : board) (i : nat) (v : value) : board :=
  if decide (i < length b)%nat then <[i:=v]> b
  else b ++ replicate (i - length b) undefined ++ [v].

(** Truthiness of a cell value: only a symbol is truthy. *)
Definition truthy (v : value) : bool :=
  match v with str _ => true | _ => false end.

(** [v === w] *)
Definition strict_eq (v w : value) : bool :=
  match v, w with
  | undefined, undefined | null, null | str X, str X | str O, str O => true
  | _, _ => false
  end.

(** [board.every((cell) => cell !== null)] *)
Definition every_not_null (b : board) : bool :=
  forallb (fun cell => negb (strict_eq cell null)) b.

(** [Array(9).fill(null)] *)
Definition emptyBoard : board := replicate 9 null.

(** The number of empty cells: the bound on the depth of the search. *)
Definition count_null (b : board) : nat :=
  length (filter (fun cell => cell = null) b).

(** ** Scores of the search *)

(** The numbers the search handles: [-Infinity], [Infinity] and the
    integers [10 - depth], [depth - 10] and [0]. *)
Inductive score := NegInf | Fin (z : Z) | PosInf.

#[global] Instance score_eq_dec : EqDecision score.
Proof. solve_decision. Defined.

(** [s > t] *)
Definition score_gt (s t : score) : bool :=
  match s, t with
  | NegInf, _ => false
  | _, PosInf => false
  | Fin a, Fin b => a >? b
  | _, _ => true
  end.

(** [s <= t], as a proposition. *)
Definition score_le (s t : score) : Prop := score_gt s t = false.

(** [Math.max(s, t)] *)
Definition score_max (s t : score) : score := if score_gt s t then s else t.

(** [Math.min(s, t)] *)
Definition score_min (s t : score) : score := if score_gt s t then t else s.

(** ** Computations on a shared, mutable board *)

(** A computation reads and writes the one board it was handed and gives
    a result; [None] is a search cut short by its depth bound. *)
Definition M (A : Type) : Type := board -> option (A * board).

Definition ret {A} (a : A) : M A := fun b => Some (a, b).

Definition bind {A B} (c : M A) (k : A -> M B) : M B :=
  fun b => match c b with
           | Some (a, b') => k a b'
           | None => None
           end.

Notation "x <- c ;; k" := (bind c (fun x => k))
  (at level 100, c at next level, right associativity).

(** [board[i]] and [board[i] = v] on the shared board. *)
Definition read (i : nat) : M value := fun b => Some (get b i, b).
Definition write (i : nat) (v : value) : M unit := fun b => Some (tt, set b i v).

(** [for (let i = i0; i < board.length; i++) acc = body(i, acc)], the
    length being read again at each turn; [n] bounds the turns. *)
Fixpoint for_cells {A} (n : nat) (i : nat) (body : nat -> A -> M A) (acc : A)
  : M A :=
  fun b =>
    if (i <? length b)%nat then
      match n with
      | 0%nat => None
      | S n' => (acc' <- body i acc ;; for_cells n' (S i) body acc') b
      end
    else Some (acc, b).

(** ** [AIPlayer] *)

Record AIPlayer := { aiSymbol : mark; humanSymbol : mark }.

#[global] Instance AIPlayer_eq_dec : EqDecision AIPlayer.
Proof. solve_decision. Defined.

(** What [checkGameState] returns: a symbol, the string "draw" or [null]. *)
Inductive gameStateResult := StateWinner (m : mark) | StateDraw | StateNull.

Module AI.

(** The table [winningCombinations] local to [checkGameState]. *)
Definition winningCombinations : list (nat * nat * nat) :=
  [ (0, 1, 2); (3, 4, 5); (6, 7, 8);
    (0, 3, 6); (1, 4, 7); (2, 5, 8);
    (0, 4, 8); (2, 4, 6) ]%nat.

(** The [for ... of] loop of [checkGameState]: the test
    [board[a] && board[a] === board[b] && board[a] === board[c]] on each
    triple in turn; a truthy [board[a]] is a symbol, which is returned. *)
Fixpoint checkCombinations (b : board) (combos : list (nat * nat * nat))
  : option mark :=
  match combos with
  | [] => None
  | (a, b', c) :: rest =>
      match get b a with
      | str m =>
          if strict_eq (get b a) (get b b') && strict_eq (get b a) (get b c)
          then Some m
          else checkCombinations b rest
      | _ => checkCombinations b rest
      end
  end.

Definition checkGameState (b : board) : gameStateResult :=
  match checkCombinations b winningCombinations with
  | Some m => StateWinner m
  | None => if every_not_null b then StateDraw else StateNull
  end.

(** The first lines of [minimax]: the score of a finished game, or
    nothing when the search goes on (no result, or a winner that is
    neither of the player's two symbols). *)
Definition terminalScore (ai : AIPlayer) (result : gameStateResult)
    (depth : Z) : option score :=
  match result with
  | StateNull => None
  | StateWinner m =>
      if bool_decide (m = aiSymbol ai) then Some (Fin (10 - depth))
      else if bool_decide (m = humanSymbol ai) then Some (Fin (depth - 10))
      else None
  | StateDraw => Some (Fin 0)
  end.

(** One turn of a loop of [minimax]: try [symbol] in cell [i] if it is
    empty, score the board with [search], take the symbol back. *)
Definition tryCell (search : M score) (symbol : mark)
    (better : score -> score -> score) (i : nat) (bestScore : score)
  : M score :=
  cell <- read i ;;
  if strict_eq cell null then
    _ <- write i (str symbol) ;;
    score <- search ;;
    _ <- write i null ;;
    ret (better score bestScore)
  else ret bestScore.

(** [minimax], the recursion bounded by [fuel]. *)
Fixpoint minimax_rec (fuel : nat) (ai : AIPlayer) (depth : Z)
    (isMaximizing : bool) : M score :=
  match fuel with
  | 0%nat => fun _ => None
  | S fuel' =>
      fun b =>
        match terminalScore ai (checkGameState b) depth with
        | Some s => Some (s, b)
        | None =>
            if isMaximizing then
              for_cells (length b) 0
                (tryCell (minimax_rec fuel' ai (depth + 1) false)
                   (aiSymbol ai) score_max)
                NegInf b
            else
              for_cells (length b) 0
                (tryCell (minimax_rec fuel' ai (depth + 1) true)
                   (humanSymbol ai) score_min)
                PosInf b
        end
  end.

(** [minimax(board, depth, isMaximizing)]: each level of the recursion
    fills one empty cell, so one more level than there are empty cells
    is all the search can use. *)
Definition minimax (ai : AIPlayer) (depth : Z) (isMaximizing : bool)
  : M score :=
  fun b => minimax_rec (S (count_null b)) ai depth isMaximizing b.

(** One turn of the loop of [findBestMove]; the accumulator is
    [(bestScore, bestMove)]. *)
Definition tryMove (ai : AIPlayer) (i : nat) (best : score * option nat)
  : M (score * option nat) :=
  cell <- read i ;;
  if strict_eq cell null then
    _ <- write i (str (aiSymbol ai)) ;;
    score <- minimax ai 0 false ;;
    _ <- write i null ;;
    ret (if score_gt score (fst best) then (score, Some i) else best)
  else ret best.

(** [findBestMove(board)]: the chosen cell, or [None] for [null]. *)
Definition findBestMove (ai : AIPlayer) : M (option nat) :=
  fun b =>
    (best <- for_cells (length b) 0 (tryMove ai) (NegInf, None) ;;
     ret (snd best)) b.

End AI.

(** ** [GameLogic] *)

(** The [winner] field of a result: a symbol or the string "draw". *)
Inductive winnerField := WinnerMark (m : mark) | WinnerDraw.

Record gameResult := { winner : winnerField; combination : list nat }.

Module Logic.

(** [this.winningCombinations], as the constructor fills it: the rows,
    the columns, the two diagonals. *)
Definition winningCombinations : list (nat * nat * nat) :=
  [ (0, 1, 2); (3, 4, 5); (6, 7, 8);
    (0, 3, 6); (1, 4, 7); (2, 5, 8);
    (0, 4, 8); (2, 4, 6) ]%nat.

(** The loop of [checkWinner] over the triples. *)
Fixpoint checkWinnerIn (b : board) (combos : list (nat * nat * nat))
  : option gameResult :=
  match combos with
  | [] => None
  | (a, b', c) :: rest =>
      match get b a with
      | str m =>
          if strict_eq (get b a) (get b b') && strict_eq (get b a) (get b c)
          then Some {| winner := WinnerMark m; combination := [a; b'; c] |}
          else checkWinnerIn b rest
      | _ => checkWinnerIn b rest
      end
  end.

Definition checkWinner (b : board) : option gameResult :=
  checkWinnerIn b winningCombinations.

Definition checkDraw (b : board) : bool := every_not_null b.

Definition getGameResult (b : board) : option gameResult :=
  match checkWinner b with
  | Some winResult => Some winResult
  | None =>
      if checkDraw b then Some {| winner := WinnerDraw; combination := [] |}
      else None
  end.

End Logic.

(** ** [GameConfig] *)

Inductive gameMode := ModePlayer | ModeAI.

#[global] Instance gameMode_eq_dec : EqDecision gameMode.
Proof. solve_decision. Defined.

Record GameConfig := {
  mode : gameMode;
  nameX : string;   (* playerNames.X *)
  nameO : string;   (* playerNames.O *)
  aiPlayer : mark;
  humanPlayer : mark
}.

Module Config.

Definition new : GameConfig :=
  {| mode := ModePlayer; nameX := "Jogador X"; nameO := "Jogador O";
     aiPlayer := O; humanPlayer := X |}.

Definition setNameO (c : GameConfig) (n : string) : GameConfig :=
  {| mode := mode c; nameX := nameX c; nameO := n;
     aiPlayer := aiPlayer c; humanPlayer := humanPlayer c |}.

Definition setNameX (c : GameConfig) (n : string) : GameConfig :=
  {| mode := mode c; nameX := n; nameO := nameO c;
     aiPlayer := aiPlayer c; humanPlayer := humanPlayer c |}.

Definition setMode (c : GameConfig) (m : gameMode) : GameConfig :=
  let c' := {| mode := m; nameX := nameX c; nameO := nameO c;
               aiPlayer := aiPlayer c; humanPlayer := humanPlayer c |} in
  match m with
  | ModeAI => setNameO c' "IA"
  | ModePlayer => c'
  end.

(** [name || `Jogador ${player}`]: the empty string is falsy. *)
Definition setPlayerName (c : GameConfig) (player : mark) (name : string)
  : GameConfig :=
  match player with
  | X => setNameX c (if bool_decide (name = "") then "Jogador X" else name)
  | O => setNameO c (if bool_decide (name = "") then "Jogador O" else name)
  end.

Definition isAITurn (c : GameConfig) (currentPlayer : mark) : bool :=
  bool_decide (mode c = ModeAI) && bool_decide (currentPlayer = aiPlayer c).

End Config.

(** ** [GameState] *)

Record Scores := { scoreX : Z; scoreO : Z; scoreDraw : Z }.

Record GameState := {
  gboard : board;
  currentPlayer : mark;
  gameActive : bool;
  scores : Scores
}.

Module State.

(** The state the constructor builds, [loaded] being the scores it read
    back from the storage, if any. *)
Definition new (loaded : option Scores) : GameState :=
  {| gboard := emptyBoard; currentPlayer := X; gameActive := true;
     scores := default {| scoreX := 0; scoreO := 0; scoreDraw := 0 |} loaded |}.

Definition reset (s : GameState) : GameState :=
  {| gboard := emptyBoard; currentPlayer := X; gameActive := true;
     scores := scores s |}.

Definition resetScores (s : GameState) : GameState :=
  {| gboard := gboard s; currentPlayer := currentPlayer s;
     gameActive := gameActive s;
     scores := {| scoreX := 0; scoreO := 0; scoreDraw := 0 |} |}.

(** [makeMove(index)]: the returned boolean and the state afterwards. *)
Definition makeMove (s : GameState) (index : nat) : bool * GameState :=
  if truthy (get (gboard s) index) || negb (gameActive s) then (false, s)
  else (true, {| gboard := set (gboard s) index (str (currentPlayer s));
                 currentPlayer := currentPlayer s;
                 gameActive := gameActive s;
                 scores := scores s |}).

Definition switchPlayer (s : GameState) : GameState :=
  {| gboard := gboard s;
     currentPlayer := match currentPlayer s with X => O | O => X end;
     gameActive := gameActive s;
     scores := scores s |}.

Definition updateScore (s : GameState) (w : winnerField) : GameState :=
  let sc := scores s in
  {| gboard := gboard s; currentPlayer := currentPlayer s;
     gameActive := gameActive s;
     scores :=
       match w with
       | WinnerDraw => {| scoreX := scoreX sc; scoreO := scoreO sc;
                          scoreDraw := scoreDraw sc + 1 |}
       | WinnerMark X => {| scoreX := scoreX sc + 1; scoreO := scoreO sc;
                            scoreDraw := scoreDraw sc |}
       | WinnerMark O => {| scoreX := scoreX sc; scoreO := scoreO sc + 1;
                            scoreDraw := scoreDraw sc |}
       end |}.

Definition setInactive (s : GameState) : GameState :=
  {| gboard := gboard s; currentPlayer := currentPlayer s;
     gameActive := false; scores := scores s |}.

End State.

(** ** [UIController], as far as the game depends on it *)

Module UI.

(** Modelled from the spec: the page [index.html] that the controller
    reads its elements from is not among the sources. The board of the
    spec has 9 cells, indexed 0-8, so
    [this.cells = document.querySelectorAll(".cell")] holds nine
    elements, one for each cell of the board. *)
Definition cells : nat := 9.

(** [updateCell(index, player)] writes the symbol into [this.cells[index]].
    For an index that has no element, [cell] is [undefined] and the
    assignment to [cell.textContent] throws a TypeError: [None]. The
    other methods of the controller change the page only. *)
Definition updateCell (index : nat) : option unit :=
  if (index <? cells)%nat then Some tt else None.

End UI.

Arguments UI.updateCell : simpl never.

(** ** [TicTacToeGame], the controller *)

(** The controller's fields, and the number of callbacks that
    [makeAIMove] has handed to [setTimeout] and that have not fired yet;
    these callbacks are all the same closure over the controller. *)
Record TicTacToeGame := {
  config : GameConfig;
  state : GameState;
  ai : option AIPlayer;
  pendingAIMoves : nat
}.

(** What [getSetupData] reads from the setup screen. *)
Record SetupData := {
  setupMode : gameMode;
  playerXName : string;
  playerOName : string
}.

Module Game.

Definition new (loaded : option Scores) : TicTacToeGame :=
  {| config := Config.new; state := State.new loaded; ai := None;
     pendingAIMoves := 0 |}.

Definition withState (g : TicTacToeGame) (s : GameState) : TicTacToeGame :=
  {| config := config g; state := s; ai := ai g;
     pendingAIMoves := pendingAIMoves g |}.

Definition startGame (g : TicTacToeGame) (d : SetupData) : TicTacToeGame :=
  let c := Config.setMode (config g) (setupMode d) in
  let c := Config.setPlayerName c X (playerXName d) in
  match setupMode d with
  | ModeAI =>
      let c := Config.setPlayerName c O "IA 🤖" in
      {| config := c; state := state g;
         ai := Some {| aiSymbol := aiPlayer c; humanSymbol := humanPlayer c |};
         pendingAIMoves := pendingAIMoves g |}
  | ModePlayer =>
      let c := Config.setPlayerName c O (playerOName d) in
      {| config := c; state := state g; ai := None;
         pendingAIMoves := pendingAIMoves g |}
  end.

Definition withPending (g : TicTacToeGame) (n : nat) : TicTacToeGame :=
  {| config := config g; state := state g; ai := ai g; pendingAIMoves := n |}.

(** [makeAIMove()]: one more callback waits for its 500 ms. *)
Definition makeAIMove (g : TicTacToeGame) : TicTacToeGame :=
  withPending g (S (pendingAIMoves g)).

Definition handleGameEnd (g : TicTacToeGame) (result : gameResult)
  : TicTacToeGame :=
  withState g (State.updateScore (State.setInactive (state g)) (winner result)).

(** [handleCellClick(index)]. When [ui.updateCell] throws, the handler
    ends there: [makeMove] has written the board, and neither the result
    is looked at nor the turn passed on. *)
Definition handleCellClick (g : TicTacToeGame) (index : nat) : TicTacToeGame :=
  if Config.isAITurn (config g) (currentPlayer (state g)) then g
  else
    match State.makeMove (state g) index with
    | (false, _) => g
    | (true, s) =>
        let g := withState g s in
        match UI.updateCell index with
        | None => g
        | Some _ =>
            match Logic.getGameResult (gboard (state g)) with
            | Some result => handleGameEnd g result
            | None =>
                let g := withState g (State.switchPlayer (state g)) in
                if Config.isAITurn (config g) (currentPlayer (state g))
                then makeAIMove g
                else g
            end
        end
    end.

(** The callback of [makeAIMove] from the point where [findBestMove] has
    returned [bestMove]; it ends where [ui.updateCell] throws, as
    [handleCellClick] does. *)
Definition applyBestMove (g : TicTacToeGame) (bestMove : option nat)
  : TicTacToeGame :=
  match bestMove with
  | None => g
  | Some bestMove =>
      match State.makeMove (state g) bestMove with
      | (false, _) => g
      | (true, s) =>
          let g := withState g s in
          match UI.updateCell bestMove with
          | None => g
          | Some _ =>
              match Logic.getGameResult (gboard (state g)) with
              | Some result => handleGameEnd g result
              | None => withState g (State.switchPlayer (state g))
              end
          end
      end
  end.

(** The callback of [makeAIMove]: the search runs on a copy
    [[...this.state.board]] of the board. Without a player in [this.ai]
    the call of [findBestMove] throws and the callback ends there. *)
Definition aiMoveCallback (g : TicTacToeGame) : TicTacToeGame :=
  match ai g with
  | None => g
  | Some player =>
      match AI.findBestMove player (gboard (state g)) with
      | Some (bestMove, _) => applyBestMove g bestMove
      | None => g
      end
  end.

(** A timer of [makeAIMove] expires: its callback runs, if one waits. *)
Definition aiMoveTimeout (g : TicTacToeGame) : TicTacToeGame :=
  match pendingAIMoves g with
  | 0%nat => g
  | S n => aiMoveCallback (withPending g n)
  end.

Definition resetGame (g : TicTacToeGame) : TicTacToeGame :=
  let g := withState g (State.reset (state g)) in
  if Config.isAITurn (config g) (currentPlayer (state g))
  then makeAIMove g
  else g.

(** [resetScores()] and [backToSetup()], [confirmed] being the answer
    to the [confirm] dialog. *)
Definition resetScores (g : TicTacToeGame) (confirmed : bool) : TicTacToeGame :=
  if confirmed then withState g (State.resetScores (state g)) else g.

Definition backToSetup (g : TicTacToeGame) (confirmed : bool) : TicTacToeGame :=
  if confirmed then withState g (State.reset (state g)) else g.

(** The events the controller listens to. *)
Inductive event :=
| CellClick (index : nat)
| AIMoveTimeout
| ResetClick
| ResetScoreClick (confirmed : bool)
| BackToSetupClick (confirmed : bool)
| StartGameClick (d : SetupData).

Definition step (g : TicTacToeGame) (e : event) : TicTacToeGame :=
  match e with
  | CellClick index => handleCellClick g index
  | AIMoveTimeout => aiMoveTimeout g
  | ResetClick => resetGame g
  | ResetScoreClick confirmed => resetScores g confirmed
  | BackToSetupClick confirmed => backToSetup g confirmed
  | StartGameClick d => startGame g d
  end.

Definition run (g : TicTacToeGame) (es : list event) : TicTacToeGame :=
  foldl step g es.

(** A session against the computer, as [startGame] sets it up. *)
Definition aiSession (loaded : option Scores) (name : string) : TicTacToeGame :=
  startGame (new loaded)
    {| setupMode := ModeAI; playerXName := name; playerOName := "" |}.

End Game.

(** The player of a session against the computer:
    [new AIPlayer(this.config.aiPlayer, this.config.humanPlayer)]. *)
Definition theAI : AIPlayer := {| aiSymbol := O; humanSymbol := X |}.

(** ** What a search returns *)

(** The score a finished computation returned. *)
Definition score_of (r : option (score * board)) : score :=
  match r with
  | Some (s, _) => s
  | None => NegInf
  end.

(** The number [minimax(board, depth, isMaximizing)] returns. *)
Definition minimaxScore (ai : AIPlayer) (depth : Z) (isMaximizing : bool)
    (b : board) : score :=
  score_of (AI.minimax ai depth isMaximizing b).

(** What a loop of [minimax] leaves in [bestScore] when [childScore i] is
    the score of the board with cell [i] filled: the empty cells are
    visited in index order from [init]. *)
Definition bestOver (better : score -> score -> score) (init : score)
    (childScore : nat -> score) (b : board) : score :=
  foldl (fun acc i =>
           if strict_eq (get b i) null then better (childScore i) acc else acc)
        init (seq 0 (length b)).

(** What the loop of [findBestMove] leaves in [(bestScore, bestMove)]. *)
Definition bestMoveOver (moveScore : nat -> score) (b : board)
  : score * option nat :=
  foldl (fun best i =>
           if strict_eq (get b i) null then
             if score_gt (moveScore i) (fst best) then (moveScore i, Some i)
             else best
           else best)
        (NegInf, None) (seq 0 (length b)).

(** The score [findBestMove] gives to the move in cell [i]. *)
Definition moveScore (ai : AIPlayer) (b : board) (i : nat) : score :=
  minimaxScore ai 0 false (set b i (str (aiSymbol ai))).

(** ** Reading a result of the rules engine as a state of the search *)

Definition resultState (r : option gameResult) : gameStateResult :=
  match r with
  | Some {| winner := WinnerMark m |} => StateWinner m
  | Some {| winner := WinnerDraw |} => StateDraw
  | None => StateNull
  end.

(** The three cells of a triple hold the symbol [m]. *)
Definition lineOf (b : board) (m : mark) (t : nat * nat * nat) : Prop :=
  let '(a, b', c) := t in
  get b a = str m /\ get b b' = str m /\ get b c = str m.

(** The three cells of a triple hold the same symbol. *)
Definition wins (b : board) (t : nat * nat * nat) : Prop :=
  exists m, lineOf b m t.

(** ** Vocabulary of the statements *)

(** The other of the two symbols. *)
Definition otherMark (m : mark) : mark :=
  match m with X => O | O => X end.

(** The board shows a win of [m]. *)
Definition wonBy (b : board) (m : mark) : Prop :=
  exists l, Logic.getGameResult b
            = Some {| winner := WinnerMark m; combination := l |}.


(** [s] is the greatest, or the least, of the scores [f i] of the cells
    [i] that satisfy [P]; there is such a cell. *)
Definition isMaxOver (P : nat -> Prop) (f : nat -> score) (s : score) : Prop :=
  (exists i, P i /\ f i = s) /\ forall i, P i -> score_le (f i) s.

Definition isMinOver (P : nat -> Prop) (f : nat -> score) (s : score) : Prop :=
  (exists i, P i /\ f i = s) /\ forall i, P i -> score_le s (f i).

(** Cell [i] of the board is empty. *)
Definition emptyCell (b : board) (i : nat) : Prop := get b i = null.

(** What [minimax] computes on a board, by the result of the rules
    engine on it. *)
Definition minimaxPost (ai : AIPlayer) (depth : Z) (isMaximizing : bool)
    (b : board) (s : score) : Prop :=
  match Logic.getGameResult b with
  | Some {| winner := WinnerMark m |} =>
      (m = aiSymbol ai -> s = Fin (10 - depth)) /\
      (m = humanSymbol ai -> s = Fin (depth - 10))
  | Some {| winner := WinnerDraw |} => s = Fin 0
  | None =>
      if isMaximizing then
        isMaxOver (emptyCell b)
          (fun i => minimaxScore ai (depth + 1) false
                      (set b i (str (aiSymbol ai)))) s
      else
        isMinOver (emptyCell b)
          (fun i => minimaxScore ai (depth + 1) true
                      (set b i (str (humanSymbol ai)))) s
  end.

(** What [findBestMove] returns on a board. *)
Definition findBestMovePost (ai : AIPlayer) (b : board) (r : option nat)
  : Prop :=
  (r = None <-> forall i, get b i <> null) /\
  match r with
  | None => True
  | Some k =>
      emptyCell b k /\
      (forall j, emptyCell b j -> score_le (moveScore ai b j) (moveScore ai b k)) /\
      (forall j, (j < k)%nat -> emptyCell b j ->
                 score_gt (moveScore ai b k) (moveScore ai b j) = true)
  end.

(** ** Scoring boards from a table *)

(** The searches from the boards of a session visit the same boards over
    and over. A table that holds the score of each board it names, at the
    depth and in the layer it names, lets the moves of the computer be
    read off without a search. The table is built once and then checked,
    entry by entry, against the body of [minimax]. *)

(** An entry: a board, a depth, a layer and the score there. *)
Definition entry : Type := board * Z * bool * score.

Abbreviation table := (Pmap entry).

Definition cellCode (v : value) : N :=
  match v with
  | undefined => 0
  | null => 1
  | str X => 2
  | str O => 3
  end.

Definition boardCode (b : board) : N :=
  foldr (fun v n => cellCode v + 4 * n)%N 1%N b.

(** Where the table keeps the entry of a board, a depth and a layer. *)
Definition slot (b : board) (depth : Z) (isMaximizing : bool) : positive :=
  N.succ_pos ((boardCode b * 16 + Z.to_N depth) * 2
              + if isMaximizing then 1 else 0)%N.

(** The score the table holds for a board, a depth and a layer, if the
    entry in their slot is theirs. *)
Definition lookupT (T : table) (b : board) (depth : Z) (isMaximizing : bool)
  : option score :=
  match T !! slot b depth isMaximizing with
  | Some (b', depth', isMaximizing', s) =>
      if bool_decide (b' = b /\ depth' = depth /\ isMaximizing' = isMaximizing)
      then Some s else None
  | None => None
  end.

(** The fold of a loop over the empty cells, given the score [f i] of
    the board with cell [i] filled. *)
Definition foldCells {A} (step : A -> nat -> score -> A) (f : nat -> score)
    (b : board) (init : A) : A :=
  foldl (fun a i => if strict_eq (get b i) null then step a i (f i) else a)
        init (seq 0 (length b)).

(** The same fold with scores that may be missing. *)
Definition foldCellsOpt {A} (step : A -> nat -> score -> A)
    (f : nat -> option score) (b : board) (init : A) : option A :=
  foldl (fun acc i =>
           if strict_eq (get b i) null then
             match acc, f i with
             | Some a, Some c => Some (step a i c)
             | _, _ => None
             end
           else acc)
        (Some init) (seq 0 (length b)).

(** The body of [minimax] with the recursive calls read from the table. *)
Definition stepScore (ai : AIPlayer) (T : table) (b : board) (depth : Z)
    (isMaximizing : bool) : option score :=
  match AI.terminalScore ai (AI.checkGameState b) depth with
  | Some s => Some s
  | None =>
      if isMaximizing then
        foldCellsOpt (fun a _ c => score_max c a)
          (fun i => lookupT T (set b i (str (aiSymbol ai))) (depth + 1) false)
          b NegInf
      else
        foldCellsOpt (fun a _ c => score_min c a)
          (fun i => lookupT T (set b i (str (humanSymbol ai))) (depth + 1) true)
          b PosInf
  end.

Definition entryOk (ai : AIPlayer) (T : table) (e : entry) : bool :=
  let '(b, depth, isMaximizing, s) := e in
  bool_decide (stepScore ai T b depth isMaximizing = Some s).

(** Every entry of the table is what the body of [minimax] gives from the
    entries of the boards one move further. *)
Definition tableOk (ai : AIPlayer) (T : table) : bool :=
  forallb (fun p => entryOk ai T p.2) (map_to_list T).

(** The loop of [findBestMove] with the scores read from the table. *)
Definition findBestMoveT (ai : AIPlayer) (T : table) (b : board)
  : option (option nat) :=
  snd <$> foldCellsOpt
            (fun best i c => if score_gt c (fst best) then (c, Some i) else best)
            (fun i => lookupT T (set b i (str (aiSymbol ai))) 0 false)
            b (NegInf, None).

(** Building a table: the search, with every score it finds written down
    and every board it has an entry for not searched again. *)
Fixpoint fill (fuel : nat) (ai : AIPlayer) (b : board) (depth : Z)
    (isMaximizing : bool) (T : table) : table * score :=
  match lookupT T b depth isMaximizing with
  | Some s => (T, s)
  | None =>
      match fuel with
      | 0%nat => (T, NegInf)
      | S fuel' =>
          let '(T', s) :=
            match AI.terminalScore ai (AI.checkGameState b) depth with
            | Some s => (T, s)
            | None =>
                let symbol := if isMaximizing then aiSymbol ai else humanSymbol ai in
                let better := if isMaximizing then score_max else score_min in
                foldl (fun '(T, acc) i =>
                         if strict_eq (get b i) null then
                           let '(T', c) :=
                             fill fuel' ai (set b i (str symbol)) (depth + 1)
                               (negb isMaximizing) T in
                           (T', better c acc)
                         else (T, acc))
                      (T, if isMaximizing then NegInf else PosInf)
                      (seq 0 (length b))
            end in
          (<[slot b depth isMaximizing := (b, depth, isMaximizing, s)]> T', s)
      end
  end.

(** The entries [findBestMove] needs on a board. *)
Definition fillMoves (ai : AIPlayer) (b : board) (T : table) : table :=
  foldl (fun T i =>
           if strict_eq (get b i) null
           then (fill (S (length b)) ai (set b i (str (aiSymbol ai))) 0 false T).1
           else T)
        T (seq 0 (length b)).

(** ** Every course of a session against the computer *)

(** The board shows a win of X. *)
Definition xWon (b : board) : bool :=
  match Logic.getGameResult b with
  | Some {| winner := WinnerMark X |} => true
  | _ => false
  end.

(** [handleCellClick] does not take up a click on cell [i]. *)
Definition rejected (g : TicTacToeGame) (i : nat) : bool :=
  Config.isAITurn (config g) (currentPlayer (state g))
  || negb (State.makeMove (state g) i).1.

(** No board that clicks on the nine cells and expiring timers lead to
    from [g] shows a win of X; the computer's moves are read from the
    table. Each click taken up and each timer consumes one unit of [fuel]. *)
Fixpoint explore (fuel : nat) (T : table) (g : TicTacToeGame) : bool :=
  match fuel with
  | 0%nat => false
  | S fuel' =>
      negb (xWon (gboard (state g)))
      && bool_decide (ai g = Some theAI)
      && forallb (fun i => if rejected g i then true
                           else explore fuel' T (Game.handleCellClick g i))
                 (seq 0 9)
      && match pendingAIMoves g with
         | 0%nat => true
         | S n =>
             match findBestMoveT theAI T (gboard (state g)) with
             | Some r => explore fuel' T (Game.applyBestMove (Game.withPending g n) r)
             | None => false
             end
         end
  end.

(** The table for the boards [explore] meets. *)
Fixpoint buildPlay (fuel : nat) (g : TicTacToeGame) (T : table) : table :=
  match fuel with
  | 0%nat => T
  | S fuel' =>
      let T := foldl (fun T i => if rejected g i then T
                                 else buildPlay fuel' (Game.handleCellClick g i) T)
                     T (seq 0 9) in
      match pendingAIMoves g with
      | 0%nat => T
      | S n =>
          let T := fillMoves theAI (gboard (state g)) T in
          match findBestMoveT theAI T (gboard (state g)) with
          | Some r => buildPlay fuel' (Game.applyBestMove (Game.withPending g n) r) T
          | None => T
          end
      end
  end.

(** The session every course is explored from. *)
Definition firstSession : TicTacToeGame := Game.aiSession None "".

(** The table of the development: the boards of the sessions, the empty
    board with either side to move, and the first move of the computer
    on the empty board. *)
Definition scoreTable : table :=
  let T := buildPlay 20 firstSession ∅ in
  let T := (fill 10 theAI emptyBoard 0 false T).1 in
  let T := (fill 10 theAI emptyBoard 0 true T).1 in
  fillMoves theAI emptyBoard T.

(** The events of a course of play: a click on one of the nine cells,
    or a timer of [makeAIMove] that expires. *)
Definition playEvent (e : Game.event) : Prop :=
  match e with
  | Game.CellClick index => (index < 9)%nat
  | Game.AIMoveTimeout => True
  | _ => False
  end.

(** Two controllers that differ at most in the names and the scores. *)
Definition samePlay (g1 g2 : TicTacToeGame) : Prop :=
  mode (config g1) = mode (config g2) /\
  aiPlayer (config g1) = aiPlayer (config g2) /\
  ai g1 = ai g2 /\
  pendingAIMoves g1 = pendingAIMoves g2 /\
  gboard (state g1) = gboard (state g2) /\
  currentPlayer (state g1) = currentPlayer (state g2) /\
  gameActive (state g1) = gameActive (state g2).

(** What is computed once on the table of the development: the table
    is checked, no course of play from the first session shows a win of
    X, and the table has the scores of the empty board and the first
    move on it. *)
Definition tableFacts (T : table) : bool :=
  tableOk theAI T
  && explore 20 T firstSession
  && bool_decide (lookupT T emptyBoard 0 false = Some (Fin 0))
  && bool_decide (lookupT T emptyBoard 0 true = Some (Fin 0))
  && bool_decide (findBestMoveT theAI T emptyBoard = Some (Some 0%nat)).

(** ** Vocabulary of the properties of the whole controller *)

(** The number of cells of a board that hold the symbol [m]. *)
Definition countMark (m : mark) (b : board) : nat :=
  length (filter (fun cell => cell = str m) b).

(** The counter of the scores that a result is credited to. *)
Definition scoreOf (sc : Scores) (w : winnerField) : Z :=
  match w with
  | WinnerMark X => scoreX sc
  | WinnerMark O => scoreO sc
  | WinnerDraw => scoreDraw sc
  end.

(** The state with the current symbol written in cell [index]. *)
Definition placed (st : GameState) (index : nat) : GameState :=
  {| gboard := set (gboard st) index (str (currentPlayer st));
     currentPlayer := currentPlayer st;
     gameActive := gameActive st;
     scores := scores st |}.

(** A move into cell [index]: the cell holds no symbol and the game is
    active; the current symbol is written there. Where the page has no
    such cell that is all. Where it has one, the game then ends, with the
    result credited, if the rules engine finds the board finished, and
    the turn changes hands if not. *)
Definition movedAt (st : GameState) (index : nat) (st' : GameState) : Prop :=
  truthy (get (gboard st) index) = false /\
  gameActive st = true /\
  match UI.updateCell index with
  | None => st' = placed st index
  | Some _ =>
      match Logic.getGameResult (gboard (placed st index)) with
      | Some result =>
          st' = State.updateScore (State.setInactive (placed st index))
                  (winner result)
      | None => st' = State.switchPlayer (placed st index)
      end
  end.

(** The empty cells of the board are cells of the page. *)
Definition emptyOnPage (b : board) : Prop :=
  forall i : nat, get b i = null -> (i < 9)%nat.

(** What a click or an expiring timer can do to the state of the game:
    nothing, or a move into some cell. *)
Definition moveOutcome (st st' : GameState) : Prop :=
  st' = st \/ exists index : nat, movedAt st index st'.

(** The events of a controller whose board has nine cells to click. *)
Definition clickInRange (e : Game.event) : Prop :=
  match e with
  | Game.CellClick index => (index < 9)%nat
  | _ => True
  end.

(** A board of nine cells, each empty or with a symbol. *)
Definition nineCells (b : board) : Prop :=
  length b = 9%nat /\ forall i : nat, (i < 9)%nat -> get b i <> undefined.

(** The states a controller goes through from its construction. *)
Definition reached (loaded : option Scores) (es : list Game.event)
  : TicTacToeGame :=
  Game.run (Game.new loaded) es.

(** The three situations of a session against the computer: the game
    has ended; the human, X, is to move; the computer, O, is to move and
    the timer of its move is set. *)
Definition gameOver (g : TicTacToeGame) : Prop :=
  pendingAIMoves g = 0%nat /\ gameActive (state g) = false.

Definition humanToMove (g : TicTacToeGame) : Prop :=
  pendingAIMoves g = 0%nat /\ gameActive (state g) = true /\
  currentPlayer (state g) = X.

Definition computerToMove (g : TicTacToeGame) : Prop :=
  pendingAIMoves g = 1%nat /\ gameActive (state g) = true /\
  currentPlayer (state g) = O.

(** What a session against the computer keeps as long as it is not
    reset. *)
Definition aiSessionInv (g : TicTacToeGame) : Prop :=
  mode (config g) = ModeAI /\
  aiPlayer (config g) = O /\
  ai g = Some theAI /\
  (gameActive (state g) = true ->
   Logic.getGameResult (gboard (state g)) = None) /\
  emptyOnPage (gboard (state g)) /\
  (gameOver g \/ humanToMove g \/ computerToMove g).

(** ** Vocabulary of the properties of the moves chosen *)

(** Cell [i] is empty and the symbol [m] placed there wins at once. *)
Definition winsAfter (b : board) (m : mark) (i : nat) : bool :=
  strict_eq (get b i) null &&
  match Logic.getGameResult (set b i (str m)) with
  | Some {| winner := WinnerMark m' |} => bool_decide (m' = m)
  | _ => false
  end.

(** The cells of the board where [m] wins at once, in index order. *)
Definition winningMoves (b : board) (m : mark) : list nat :=
  List.filter (winsAfter b m) (seq 0 (length b)).

(** An event other than a start of a session. *)
Definition notStart (e : Game.event) : Prop :=
  match e with
  | Game.StartGameClick _ => False
  | _ => True
  end.

(** An event other than a confirmed reset of the scores. *)
Definition keepsScores (e : Game.event) : Prop :=
  match e with
  | Game.ResetScoreClick true => False
  | _ => True
  end.

(** Each counter of [sc'] is the counter of [sc] or more. *)
Definition scoresLe (sc sc' : Scores) : Prop :=
  scoreX sc <= scoreX sc' /\ scoreO sc <= scoreO sc' /\
  scoreDraw sc <= scoreDraw sc'.

(** * Properties *)

(** ** Reading and writing cells *)

Section Arrays.

Implicit Types (b : board) (i j : nat) (v : value).

Lemma get_lt_length b i : get b i ≠ undefined → (i < length b)%nat.
Proof.
  unfold get. intros H. destruct (b !! i) eqn:E.
  - by eapply lookup_lt_Some.
  - by destruct H.
Qed.

Lemma get_null_lt b i : get b i = null → (i < length b)%nat.
Proof. intros H. apply get_lt_length. by rewrite H. Qed.

Lemma get_set_eq b i v : get (set b i v) i = v.
Proof.
  unfold get, set. case_decide as Hi.
  - by rewrite list_lookup_insert_eq.
  - rewrite lookup_app_r by lia.
    rewrite lookup_app_r by (rewrite length_replicate; lia).
    rewrite length_replicate.
    by replace (i - length b - (i - length b))%nat with 0%nat by lia.
Qed.

Lemma get_set_ne b i j v : i ≠ j → get (set b i v) j = get b j.
Proof.
  intros Hne. unfold get, set. case_decide as Hi.
  - by rewrite list_lookup_insert_ne.
  - destruct (decide (j < length b)%nat) as [Hj|Hj].
    + by rewrite lookup_app_l.
    + rewrite (lookup_ge_None_2 b j) by lia.
      rewrite lookup_app_r by lia.
      destruct (decide (j < i)%nat) as [Hji|Hji].
      * rewrite lookup_app_l by (rewrite length_replicate; lia).
        rewrite lookup_replicate_2; [done | lia].
      * rewrite lookup_ge_None_2; [done |].
        rewrite length_app, length_replicate. simpl. lia.
Qed.

Lemma length_set_lt b i v : (i < length b)%nat → length (set b i v) = length b.
Proof. intros H. unfold set. rewrite decide_True by done. apply length_insert. Qed.

(** Taking back a symbol tried in an empty cell gives the board back. *)
Lemma set_set_restore b i v : get b i = null → set (set b i v) i null = b.
Proof.
  intros H. pose proof (get_null_lt _ _ H) as Hi.
  unfold set at 2. rewrite decide_True by done.
  unfold set. rewrite decide_True by (by rewrite length_insert).
  rewrite list_insert_insert_eq. apply list_insert_id.
  unfold get in H. destruct (b !! i) as [c|]; simpl in H; by subst.
Qed.

Lemma count_null_insert b i m :
  b !! i = Some null → count_null b = S (count_null (<[i:=str m]> b)).
Proof.
  unfold count_null. revert i. induction b as [|c b IH]; intros [|i] H;
    try discriminate.
  - injection H as ->. cbn [insert list_insert].
    rewrite filter_cons_True by done. by rewrite filter_cons_False by done.
  - cbn [insert list_insert]. cbn [lookup list_lookup] in H.
    rewrite !(filter_cons _ c). destruct (decide (c = null)).
    + cbn [length]. f_equal. by apply IH.
    + by apply IH.
Qed.

(** Filling an empty cell leaves one empty cell fewer. *)
Lemma count_null_set b i m :
  get b i = null → count_null b = S (count_null (set b i (str m))).
Proof.
  intros H. pose proof (get_null_lt _ _ H) as Hi.
  unfold set. rewrite decide_True by done. apply count_null_insert.
  unfold get in H. destruct (b !! i) as [c|]; simpl in H; by subst.
Qed.

Lemma strict_eq_true v w : strict_eq v w = true ↔ v = w.
Proof.
  split.
  - destruct v as [| |[]], w as [| |[]]; simpl; congruence.
  - intros ->. by destruct w as [| |[]].
Qed.

Lemma strict_eq_false v w : strict_eq v w = false ↔ v ≠ w.
Proof.
  rewrite <- strict_eq_true. destruct (strict_eq v w); split; congruence.
Qed.

(** [every] finds no empty cell exactly when no index reads [null]. *)
Lemma every_not_null_true b : every_not_null b = true ↔ ∀ i, get b i ≠ null.
Proof.
  unfold every_not_null. rewrite forallb_forall. split.
  - intros H i Hi. pose proof (get_null_lt _ _ Hi) as Hlt.
    unfold get in Hi. destruct (b !! i) as [c|] eqn:E; simplify_eq/=.
    assert (In null b) as Hin by (apply list_elem_of_In, list_elem_of_lookup; eauto).
    by specialize (H _ Hin).
  - intros H c Hin. apply negb_true_iff, strict_eq_false. intros ->.
    apply list_elem_of_In, list_elem_of_lookup in Hin as [i Hi].
    apply (H i). unfold get. by rewrite Hi.
Qed.

Lemma every_not_null_false b :
  every_not_null b = false ↔ ∃ i, (i < length b)%nat ∧ get b i = null.
Proof.
  split.
  - intros H. destruct (decide (Exists (λ c, c = null) b)) as [Hex|Hnex].
    + apply Exists_exists in Hex as (c & Hin & ->).
      apply list_elem_of_lookup in Hin as [i Hi]. exists i. split.
      * by eapply lookup_lt_Some.
      * unfold get. by rewrite Hi.
    + exfalso. assert (every_not_null b = true) as Ht; [|congruence].
      apply every_not_null_true. intros i Hi. apply Hnex.
      apply Exists_exists. exists null. split; [|done].
      apply list_elem_of_lookup. exists i.
      pose proof (get_null_lt _ _ Hi).
      unfold get in Hi. destruct (b !! i) as [c|] eqn:E; simplify_eq/=. done.
  - intros (i & _ & Hi). destruct (every_not_null b) eqn:E; [|done].
    rewrite every_not_null_true in E. by destruct (E i).
Qed.

End Arrays.


(** ** The search restores the board and ends *)

Section Search.

Implicit Types (b : board) (i j : nat) (s : score) (ai : AIPlayer).

(** A loop whose body gives the board back runs to the end of the board
    and folds the body's effect on the accumulator. *)
Lemma for_cells_fold {A} (f : nat → A → A) (body : nat → A → M A) b :
  (∀ i acc, (i < length b)%nat → body i acc b = Some (f i acc, b)) →
  ∀ n i acc, (length b ≤ n + i)%nat →
    for_cells n i body acc b
    = Some (foldl (λ a j, f j a) acc (seq i (length b - i)), b).
Proof.
  intros Hbody. induction n as [|n IH]; intros i acc Hn; cbn [for_cells].
  - destruct (i <? length b)%nat eqn:E.
    + apply Nat.ltb_lt in E. lia.
    + apply Nat.ltb_ge in E.
      by replace (length b - i)%nat with 0%nat by lia.
  - destruct (i <? length b)%nat eqn:E.
    + apply Nat.ltb_lt in E. unfold bind. rewrite Hbody by done.
      rewrite IH by lia.
      replace (length b - i)%nat with (S (length b - S i)) by lia.
      done.
    + apply Nat.ltb_ge in E.
      by replace (length b - i)%nat with 0%nat by lia.
Qed.

Lemma foldl_ext_in {A B} (f g : A → B → A) (l : list B) :
  (∀ a x, x ∈ l → f a x = g a x) → ∀ a, foldl f a l = foldl g a l.
Proof.
  induction l as [|x l IH]; intros H a; [done|]. cbn [foldl].
  rewrite H by left. apply IH. intros a' y Hy. apply H. by right.
Qed.

Lemma bestOver_ext better init (f g : nat → score) b :
  (∀ i, get b i = null → f i = g i) →
  bestOver better init f b = bestOver better init g b.
Proof.
  intros H. unfold bestOver. apply foldl_ext_in. intros acc i _.
  destruct (strict_eq (get b i) null) eqn:E; [|done].
  apply strict_eq_true in E. by rewrite H.
Qed.

(** One trial of [minimax]: when the inner search gives back the board it
    was handed, so does the trial. *)
Lemma tryCell_restores (search : M score) sym better i acc b :
  (get b i = null →
   ∃ s, search (set b i (str sym)) = Some (s, set b i (str sym))) →
  AI.tryCell search sym better i acc b
  = Some (if strict_eq (get b i) null
          then better (score_of (search (set b i (str sym)))) acc
          else acc, b).
Proof.
  intros H. unfold AI.tryCell, bind, read, write, ret.
  destruct (strict_eq (get b i) null) eqn:E; [|done].
  apply strict_eq_true in E. destruct (H E) as [s Hs]. rewrite Hs.
  cbn [score_of]. by rewrite set_set_restore.
Qed.

Lemma minimax_rec_restores fuel : ∀ ai depth isMax b,
  (count_null b < fuel)%nat →
  ∃ s, AI.minimax_rec fuel ai depth isMax b = Some (s, b).
Proof.
  induction fuel as [|fuel IH]; intros ai depth isMax b Hfuel; [lia|].
  cbn [AI.minimax_rec].
  destruct (AI.terminalScore ai (AI.checkGameState b) depth) as [s|]; [eauto|].
  assert (∀ m sym i, get b i = null →
            ∃ s, AI.minimax_rec fuel ai (depth + 1) m (set b i (str sym))
                 = Some (s, set b i (str sym))) as Hchild.
  { intros m sym i Hi. apply IH.
    pose proof (count_null_set b i sym Hi). lia. }
  destruct isMax.
  - erewrite for_cells_fold; [eauto| |lia].
    intros i acc _. apply tryCell_restores, Hchild.
  - erewrite for_cells_fold; [eauto| |lia].
    intros i acc _. apply tryCell_restores, Hchild.
Qed.

(** The body of [minimax] with enough fuel, in terms of the scores of
    the boards one move further. *)
Lemma minimax_rec_unfold fuel ai depth isMax b :
  (count_null b ≤ fuel)%nat →
  AI.minimax_rec (S fuel) ai depth isMax b
  = Some (match AI.terminalScore ai (AI.checkGameState b) depth with
          | Some s => s
          | None =>
              if isMax then
                bestOver score_max NegInf
                  (λ i, score_of (AI.minimax_rec fuel ai (depth + 1) false
                                    (set b i (str (aiSymbol ai))))) b
              else
                bestOver score_min PosInf
                  (λ i, score_of (AI.minimax_rec fuel ai (depth + 1) true
                                    (set b i (str (humanSymbol ai))))) b
          end, b).
Proof.
  intros Hfuel. cbn [AI.minimax_rec].
  destruct (AI.terminalScore ai (AI.checkGameState b) depth) as [s|]; [done|].
  assert (∀ m sym i, get b i = null →
            ∃ s, AI.minimax_rec fuel ai (depth + 1) m (set b i (str sym))
                 = Some (s, set b i (str sym))) as Hchild.
  { intros m sym i Hi. apply minimax_rec_restores.
    pose proof (count_null_set b i sym Hi). lia. }
  destruct isMax.
  - rewrite (for_cells_fold
               (λ i acc, if strict_eq (get b i) null
                         then score_max (score_of (AI.minimax_rec fuel ai (depth + 1) false
                                                     (set b i (str (aiSymbol ai))))) acc
                         else acc)); [|by intros; apply tryCell_restores, Hchild|lia].
    by rewrite Nat.sub_0_r.
  - rewrite (for_cells_fold
               (λ i acc, if strict_eq (get b i) null
                         then score_min (score_of (AI.minimax_rec fuel ai (depth + 1) true
                                                     (set b i (str (humanSymbol ai))))) acc
                         else acc)); [|by intros; apply tryCell_restores, Hchild|lia].
    by rewrite Nat.sub_0_r.
Qed.

(** More fuel than the search needs changes nothing. *)
Lemma minimax_rec_fuel fuel : ∀ ai depth isMax b,
  (count_null b < fuel)%nat →
  AI.minimax_rec fuel ai depth isMax b = AI.minimax ai depth isMax b.
Proof.
  induction fuel as [|fuel IH]; intros ai depth isMax b Hfuel; [lia|].
  unfold AI.minimax. rewrite !minimax_rec_unfold by lia.
  destruct (AI.terminalScore ai (AI.checkGameState b) depth) as [s|]; [done|].
  assert (∀ m sym i, get b i = null →
            AI.minimax_rec fuel ai (depth + 1) m (set b i (str sym))
            = AI.minimax_rec (count_null b) ai (depth + 1) m (set b i (str sym)))
    as Hchild.
  { intros m sym i Hi. pose proof (count_null_set b i sym Hi) as Hc.
    rewrite IH by lia. unfold AI.minimax. by rewrite Hc. }
  destruct isMax; do 2 f_equal; apply bestOver_ext; intros i Hi;
    by rewrite Hchild.
Qed.

(** [minimax] returns, and the board is then as it was. *)
Lemma minimax_eq ai depth isMax b :
  AI.minimax ai depth isMax b = Some (minimaxScore ai depth isMax b, b).
Proof.
  unfold minimaxScore.
  destruct (minimax_rec_restores (S (count_null b)) ai depth isMax b) as [s Hs];
    [lia|].
  unfold AI.minimax. by rewrite Hs.
Qed.

(** The recursive equation of the score of [minimax]. *)
Lemma minimaxScore_unfold ai depth isMax b :
  minimaxScore ai depth isMax b
  = match AI.terminalScore ai (AI.checkGameState b) depth with
    | Some s => s
    | None =>
        if isMax then
          bestOver score_max NegInf
            (λ i, minimaxScore ai (depth + 1) false
                    (set b i (str (aiSymbol ai)))) b
        else
          bestOver score_min PosInf
            (λ i, minimaxScore ai (depth + 1) true
                    (set b i (str (humanSymbol ai)))) b
    end.
Proof.
  unfold minimaxScore at 1. unfold AI.minimax.
  rewrite minimax_rec_unfold by lia. cbn [score_of].
  destruct (AI.terminalScore ai (AI.checkGameState b) depth) as [s|]; [done|].
  destruct isMax; apply bestOver_ext; intros i Hi; unfold minimaxScore;
    f_equal; apply minimax_rec_fuel;
    pose proof (count_null_set b i (aiSymbol ai) Hi);
    pose proof (count_null_set b i (humanSymbol ai) Hi); lia.
Qed.

(** One trial of [findBestMove]. *)
Lemma tryMove_restores ai i best b :
  AI.tryMove ai i best b
  = Some (if strict_eq (get b i) null
          then if score_gt (moveScore ai b i) (fst best)
               then (moveScore ai b i, Some i) else best
          else best, b).
Proof.
  unfold AI.tryMove, bind, read, write, ret, moveScore.
  destruct (strict_eq (get b i) null) eqn:E; [|done].
  apply strict_eq_true in E. rewrite minimax_eq.
  rewrite set_set_restore by done. reflexivity.
Qed.

(** [findBestMove] returns, and the board is then as it was. *)
Lemma findBestMove_eq ai b :
  AI.findBestMove ai b = Some (snd (bestMoveOver (moveScore ai b) b), b).
Proof.
  unfold AI.findBestMove, bind, ret.
  rewrite (for_cells_fold
             (λ i best, if strict_eq (get b i) null
                        then if score_gt (moveScore ai b i) (fst best)
                             then (moveScore ai b i, Some i) else best
                        else best));
    [|by intros; apply tryMove_restores|lia].
  by rewrite Nat.sub_0_r.
Qed.

End Search.


(** ** Order on the scores *)

Section Scores.

Implicit Types (s t u : score).

Ltac score_solve :=
  repeat match goal with
         | s : score |- _ => destruct s
         end;
  unfold score_le, score_max, score_min in *; cbn [score_gt] in *;
  repeat match goal with
         | H : context [(?a >? ?b)] |- _ => destruct (Z.gtb_spec a b)
         | |- context [(?a >? ?b)] => destruct (Z.gtb_spec a b)
         end;
  try done; try lia; try (f_equal; lia).

Lemma score_le_refl s : score_le s s.
Proof. score_solve. Qed.

Lemma score_le_trans s t u : score_le s t → score_le t u → score_le s u.
Proof. score_solve. Qed.

Lemma score_gt_le s t : score_gt s t = true → score_le t s.
Proof. score_solve. Qed.

Lemma score_gt_le_trans s t u :
  score_gt s t = true → score_le u t → score_gt s u = true.
Proof. score_solve. Qed.

Lemma score_le_NegInf s : score_le s NegInf → s = NegInf.
Proof. score_solve. Qed.

Lemma score_le_PosInf s : score_le PosInf s → s = PosInf.
Proof. score_solve. Qed.

Lemma score_max_cases s t :
  (score_max s t = s ∧ score_le t s) ∨ (score_max s t = t ∧ score_le s t).
Proof. score_solve; auto. Qed.

Lemma score_min_cases s t :
  (score_min s t = s ∧ score_le s t) ∨ (score_min s t = t ∧ score_le t s).
Proof. score_solve; auto. Qed.

End Scores.

(** ** The loops compute a maximum, a minimum, a first best cell *)

Section Extrema.

Implicit Types (b : board) (f : nat → score).

Lemma bestOver_snoc (better : score → score → score) (init : score) f b
    (n : nat) :
  foldl (λ acc i, if strict_eq (get b i) null then better (f i) acc else acc)
        init (seq 0 (S n))
  = let acc := foldl (λ acc i, if strict_eq (get b i) null
                               then better (f i) acc else acc) init (seq 0 n) in
    if strict_eq (get b n) null then better (f n) acc else acc.
Proof. by rewrite seq_S, foldl_app. Qed.

(** After the cells below [n] the accumulator of the maximizing loop is
    the start value or an attained score, and bounds the scores seen. *)
Lemma max_loop_inv f b (n : nat) :
  let r := foldl (λ acc i, if strict_eq (get b i) null
                           then score_max (f i) acc else acc)
                 NegInf (seq 0 n) in
  (r = NegInf ∨ ∃ i, (i < n)%nat ∧ get b i = null ∧ f i = r) ∧
  ∀ i, (i < n)%nat → get b i = null → score_le (f i) r.
Proof.
  induction n as [|n [IH1 IH2]]; [split; [by left|intros; lia]|].
  rewrite bestOver_snoc. cbv zeta in *.
  set (r := foldl _ NegInf (seq 0 n)) in *.
  destruct (strict_eq (get b n) null) eqn:E.
  - apply strict_eq_true in E.
    destruct (score_max_cases (f n) r) as [[-> Hle]|[-> Hle]].
    + split; [right; exists n; auto|].
      intros i Hi Hn. destruct (decide (i = n)) as [->|].
      * apply score_le_refl.
      * eapply score_le_trans; [apply IH2; [lia|done]|done].
    + split.
      * destruct IH1 as [?|(i & ? & ? & ?)]; [by left|right; exists i; auto].
      * intros i Hi Hn. destruct (decide (i = n)) as [->|]; [done|].
        apply IH2; [lia|done].
  - apply strict_eq_false in E. split.
    + destruct IH1 as [?|(i & ? & ? & ?)]; [by left|right; exists i; auto].
    + intros i Hi Hn. destruct (decide (i = n)) as [->|]; [done|].
      apply IH2; [lia|done].
Qed.

Lemma min_loop_inv f b (n : nat) :
  let r := foldl (λ acc i, if strict_eq (get b i) null
                           then score_min (f i) acc else acc)
                 PosInf (seq 0 n) in
  (r = PosInf ∨ ∃ i, (i < n)%nat ∧ get b i = null ∧ f i = r) ∧
  ∀ i, (i < n)%nat → get b i = null → score_le r (f i).
Proof.
  induction n as [|n [IH1 IH2]]; [split; [by left|intros; lia]|].
  rewrite bestOver_snoc. cbv zeta in *.
  set (r := foldl _ PosInf (seq 0 n)) in *.
  destruct (strict_eq (get b n) null) eqn:E.
  - apply strict_eq_true in E.
    destruct (score_min_cases (f n) r) as [[-> Hle]|[-> Hle]].
    + split; [right; exists n; auto|].
      intros i Hi Hn. destruct (decide (i = n)) as [->|].
      * apply score_le_refl.
      * eapply score_le_trans; [done|apply IH2; [lia|done]].
    + split.
      * destruct IH1 as [?|(i & ? & ? & ?)]; [by left|right; exists i; auto].
      * intros i Hi Hn. destruct (decide (i = n)) as [->|]; [done|].
        apply IH2; [lia|done].
  - apply strict_eq_false in E. split.
    + destruct IH1 as [?|(i & ? & ? & ?)]; [by left|right; exists i; auto].
    + intros i Hi Hn. destruct (decide (i = n)) as [->|]; [done|].
      apply IH2; [lia|done].
Qed.

(** On a board with an empty cell the maximizing loop returns the
    greatest score of the empty cells. *)
Lemma bestOver_max f b (i0 : nat) :
  get b i0 = null → isMaxOver (emptyCell b) f (bestOver score_max NegInf f b).
Proof.
  intros H0. destruct (max_loop_inv f b (length b)) as [H1 H2].
  cbv zeta in *. fold (bestOver score_max NegInf f b) in *.
  assert (∀ i, get b i = null → score_le (f i) (bestOver score_max NegInf f b))
    as Hle by (intros i Hi; apply H2; [by apply get_null_lt|done]).
  split; [|done].
  destruct H1 as [Hr|(i & _ & Hi & Hf)]; [|by exists i].
  exists i0. split; [done|]. specialize (Hle i0 H0). rewrite Hr in *.
  by apply score_le_NegInf.
Qed.

Lemma bestOver_min f b (i0 : nat) :
  get b i0 = null → isMinOver (emptyCell b) f (bestOver score_min PosInf f b).
Proof.
  intros H0. destruct (min_loop_inv f b (length b)) as [H1 H2].
  cbv zeta in *. fold (bestOver score_min PosInf f b) in *.
  assert (∀ i, get b i = null → score_le (bestOver score_min PosInf f b) (f i))
    as Hle by (intros i Hi; apply H2; [by apply get_null_lt|done]).
  split; [|done].
  destruct H1 as [Hr|(i & _ & Hi & Hf)]; [|by exists i].
  exists i0. split; [done|]. specialize (Hle i0 H0). rewrite Hr in *.
  by apply score_le_PosInf.
Qed.

End Extrema.


(** ** The two terminal-state checks *)

Section Rules.

Implicit Types (b : board) (t : nat * nat * nat) (m : mark).

(** The test of both loops on one triple. *)
Lemma line_test b m (a b' c : nat) :
  get b a = str m →
  strict_eq (get b a) (get b b') && strict_eq (get b a) (get b c) = true
  ↔ lineOf b m (a, b', c).
Proof.
  intros Ha. rewrite andb_true_iff, !strict_eq_true, Ha. unfold lineOf.
  split.
  - by intros [<- <-].
  - by intros (_ & -> & ->).
Qed.

Lemma wins_inv b (a b' c : nat) :
  wins b (a, b', c) →
  ∃ m, get b a = str m ∧
       strict_eq (get b a) (get b b') && strict_eq (get b a) (get b c) = true.
Proof.
  intros [m Hl]. exists m. split; [apply Hl|].
  apply (line_test b m); [apply Hl|done].
Qed.

(** [checkWinner] reports the first triple of the table that holds three
    times the same symbol. *)
Lemma checkWinnerIn_spec b (combos : list (nat * nat * nat)) :
  match Logic.checkWinnerIn b combos with
  | Some r =>
      ∃ (k : nat) t m,
        combos !! k = Some t ∧
        r = {| winner := WinnerMark m;
               combination := [t.1.1; t.1.2; t.2] |} ∧
        lineOf b m t ∧
        ∀ (j : nat) t', (j < k)%nat → combos !! j = Some t' → ¬ wins b t'
  | None => ∀ t, t ∈ combos → ¬ wins b t
  end.
Proof.
  induction combos as [|[[a b'] c] rest IH]; cbn [Logic.checkWinnerIn].
  { intros t Ht. by apply not_elem_of_nil in Ht. }
  assert (Logic.checkWinnerIn b rest = Logic.checkWinnerIn b rest →
          ¬ wins b (a, b', c) →
          match Logic.checkWinnerIn b rest with
          | Some r =>
              ∃ (k : nat) t m,
                ((a, b', c) :: rest) !! k = Some t ∧
                r = {| winner := WinnerMark m;
                       combination := [t.1.1; t.1.2; t.2] |} ∧
                lineOf b m t ∧
                ∀ (j : nat) t', (j < k)%nat →
                  ((a, b', c) :: rest) !! j = Some t' → ¬ wins b t'
          | None => ∀ t, t ∈ (a, b', c) :: rest → ¬ wins b t
          end) as Hskip.
  { intros _ Hno. destruct (Logic.checkWinnerIn b rest) as [r|].
    - destruct IH as (k & t & m & Hk & -> & Hl & Hfirst).
      exists (S k), t, m. repeat split; try done.
      intros [|j] t' Hj Ht'; simplify_eq/=; [done|].
      eapply Hfirst; [|done]. lia.
    - intros t Ht. apply elem_of_cons in Ht as [->|Ht]; [done|by apply IH]. }
  destruct (get b a) as [| |m] eqn:Ha.
  - apply Hskip; [done|]. intros Hw. apply wins_inv in Hw as (m & ? & _).
    congruence.
  - apply Hskip; [done|]. intros Hw. apply wins_inv in Hw as (m & ? & _).
    congruence.
  - destruct (strict_eq (str m) (get b b') && strict_eq (str m) (get b c))
      eqn:E.
    + assert (lineOf b m (a, b', c)) as Hl
        by (apply line_test; [done|by rewrite Ha]).
      exists 0%nat, (a, b', c), m. repeat split; try apply Hl; try done.
      intros; lia.
    + apply Hskip; [done|]. intros Hw.
      apply wins_inv in Hw as (m' & Hm' & Ht). rewrite Ha in Ht. congruence.
Qed.

(** The loop of the search's own check returns the symbol of the result
    that the loop of the rules engine returns. *)
Lemma checkCombinations_checkWinnerIn b (combos : list (nat * nat * nat)) :
  AI.checkCombinations b combos
  = match Logic.checkWinnerIn b combos with
    | Some {| winner := WinnerMark m |} => Some m
    | _ => None
    end.
Proof.
  induction combos as [|[[a b'] c] rest IH];
    cbn [AI.checkCombinations Logic.checkWinnerIn]; [done|].
  destruct (get b a) as [| |m]; try done.
  by destruct (strict_eq (str m) (get b b') && strict_eq (str m) (get b c)).
Qed.

Lemma checkWinnerIn_mark b (combos : list (nat * nat * nat)) r :
  Logic.checkWinnerIn b combos = Some r → ∃ m, winner r = WinnerMark m.
Proof.
  intros H. pose proof (checkWinnerIn_spec b combos) as Hs. rewrite H in Hs.
  destruct Hs as (k & t & m & _ & -> & _). by exists m.
Qed.

(** The check of the search is the result of the rules engine. *)
Lemma checkGameState_getGameResult b :
  AI.checkGameState b = resultState (Logic.getGameResult b).
Proof.
  unfold AI.checkGameState, Logic.getGameResult, Logic.checkWinner,
    Logic.checkDraw.
  change AI.winningCombinations with Logic.winningCombinations.
  rewrite checkCombinations_checkWinnerIn.
  destruct (Logic.checkWinnerIn b Logic.winningCombinations) as [r|] eqn:E.
  - apply checkWinnerIn_mark in E as [m Hm]. destruct r as [w l].
    simpl in Hm. subst w. done.
  - by destruct (every_not_null b).
Qed.

End Rules.

(** ** The scores of a player with two distinct symbols are numbers *)

Section Finite.

Variable ai : AIPlayer.
Hypothesis distinct : aiSymbol ai ≠ humanSymbol ai.

Lemma terminalScore_winner (m : mark) depth :
  ∃ z, AI.terminalScore ai (StateWinner m) depth = Some (Fin z).
Proof.
  cbn [AI.terminalScore]. repeat case_bool_decide; eauto.
  destruct m, (aiSymbol ai), (humanSymbol ai); congruence.
Qed.

Lemma minimaxScore_finite (n : nat) : ∀ (b : board) depth isMax,
  (count_null b ≤ n)%nat → ∃ z, minimaxScore ai depth isMax b = Fin z.
Proof.
  induction n as [|n IH]; intros b depth isMax Hn;
    rewrite minimaxScore_unfold; unfold AI.checkGameState;
    (destruct (AI.checkCombinations b AI.winningCombinations) as [m|];
     [destruct (terminalScore_winner m depth) as [z ->]; eauto|]);
    (destruct (every_not_null b) eqn:E; [cbn; eauto|]);
    apply every_not_null_false in E as (i0 & _ & Hi0); cbn [AI.terminalScore].
  - pose proof (count_null_set b i0 X Hi0). lia.
  - destruct isMax.
    + destruct (bestOver_max
                  (λ i, minimaxScore ai (depth + 1) false
                          (set b i (str (aiSymbol ai)))) b i0 Hi0)
        as [(i & Hi & <-) _].
      apply IH. pose proof (count_null_set b i (aiSymbol ai) Hi). lia.
    + destruct (bestOver_min
                  (λ i, minimaxScore ai (depth + 1) true
                          (set b i (str (humanSymbol ai)))) b i0 Hi0)
        as [(i & Hi & <-) _].
      apply IH. pose proof (count_null_set b i (humanSymbol ai) Hi). lia.
Qed.

Lemma moveScore_finite (b : board) (i : nat) : ∃ z, moveScore ai b i = Fin z.
Proof. unfold moveScore. by eapply minimaxScore_finite. Qed.

End Finite.

(** ** The loop of [findBestMove] keeps the first cell of greatest score *)

Section BestMove.

Implicit Types (b : board) (f : nat → score).

Lemma bestMoveOver_snoc f b (n : nat) :
  foldl (λ best i, if strict_eq (get b i) null
                   then if score_gt (f i) (fst best) then (f i, Some i)
                        else best
                   else best) (NegInf, None) (seq 0 (S n))
  = let best := foldl (λ best i, if strict_eq (get b i) null
                                 then if score_gt (f i) (fst best)
                                      then (f i, Some i) else best
                                 else best) (NegInf, None) (seq 0 n) in
    if strict_eq (get b n) null
    then if score_gt (f n) (fst best) then (f n, Some n) else best
    else best.
Proof. by rewrite seq_S, foldl_app. Qed.

Lemma best_move_inv f b (n : nat) :
  let best := foldl (λ best i, if strict_eq (get b i) null
                               then if score_gt (f i) (fst best)
                                    then (f i, Some i) else best
                               else best) (NegInf, None) (seq 0 n) in
  match snd best with
  | None => ∀ j, (j < n)%nat → get b j = null → f j = NegInf
  | Some k =>
      (k < n)%nat ∧ get b k = null ∧
      (∀ j, (j < k)%nat → get b j = null → score_gt (f k) (f j) = true)
  end ∧
  (∀ j, (j < n)%nat → get b j = null → score_le (f j) (fst best)) ∧
  match snd best with None => fst best = NegInf | Some k => fst best = f k end.
Proof.
  induction n as [|n IH]; [cbn; repeat split; intros; lia || done|].
  rewrite bestMoveOver_snoc. cbv zeta in *.
  destruct (foldl _ (NegInf, None) (seq 0 n)) as [s r]. cbn [fst snd] in *.
  destruct IH as (IH1 & IH2 & IH3).
  destruct (strict_eq (get b n) null) eqn:E.
  - apply strict_eq_true in E. destruct (score_gt (f n) s) eqn:G; cbn [fst snd].
    + repeat split; try done; try lia.
      * intros j Hj Hnull. eapply score_gt_le_trans; [done|].
        apply IH2; [lia|done].
      * intros j Hj Hnull. destruct (decide (j = n)) as [->|].
        -- apply score_le_refl.
        -- eapply score_le_trans; [apply IH2; [lia|done]|].
           by apply score_gt_le.
    + repeat split; try done; try lia.
      * destruct r as [k|].
        -- destruct IH1 as (? & ? & ?). repeat split; try done; try lia.
        -- intros j Hj Hnull. destruct (decide (j = n)) as [->|].
           ++ subst s. by apply score_le_NegInf.
           ++ apply IH1; [lia|done].
      * intros j Hj Hnull. destruct (decide (j = n)) as [->|]; [done|].
        apply IH2; [lia|done].
  - apply strict_eq_false in E. repeat split; try done; try lia.
    + destruct r as [k|].
      * destruct IH1 as (? & ? & ?). repeat split; try done; try lia.
      * intros j Hj Hnull. destruct (decide (j = n)) as [->|]; [done|].
        apply IH1; [lia|done].
    + intros j Hj Hnull. destruct (decide (j = n)) as [->|]; [done|].
      apply IH2; [lia|done].
Qed.

End BestMove.

(** * The rules engine *)

(** C2. [getGameResult] goes through the eight triples in the order
    rows, columns, diagonals, and on every board returns a win, with its
    symbol and its triple, for the first triple whose three cells hold
    the same symbol; when no triple does, it returns a draw if no cell
    is empty and nothing (game in progress) if some cell is. *)
Theorem getGameResult_spec :
  Logic.winningCombinations
  = [ (0, 1, 2); (3, 4, 5); (6, 7, 8);
      (0, 3, 6); (1, 4, 7); (2, 5, 8);
      (0, 4, 8); (2, 4, 6) ]%nat ∧
  ∀ b : board,
    match Logic.getGameResult b with
    | Some {| winner := WinnerMark m; combination := l |} =>
        ∃ (k : nat) (t : nat * nat * nat),
          Logic.winningCombinations !! k = Some t ∧
          l = [t.1.1; t.1.2; t.2] ∧
          lineOf b m t ∧
          ∀ (j : nat) t', (j < k)%nat →
            Logic.winningCombinations !! j = Some t' → ¬ wins b t'
    | Some {| winner := WinnerDraw; combination := l |} =>
        l = [] ∧
        (∀ t, t ∈ Logic.winningCombinations → ¬ wins b t) ∧
        (∀ i : nat, (i < length b)%nat → get b i ≠ null)
    | None =>
        (∀ t, t ∈ Logic.winningCombinations → ¬ wins b t) ∧
        (∃ i : nat, (i < length b)%nat ∧ get b i = null)
    end.
Proof.
  split; [done|]. intros b.
  unfold Logic.getGameResult, Logic.checkWinner, Logic.checkDraw.
  pose proof (checkWinnerIn_spec b Logic.winningCombinations) as Hs.
  destruct (Logic.checkWinnerIn b Logic.winningCombinations) as [r|].
  - destruct Hs as (k & t & m & Hk & -> & Hl & Hfirst). by exists k, t.
  - destruct (every_not_null b) eqn:E.
    + repeat split; [done|]. intros i _.
      by apply every_not_null_true.
    + split; [done|]. by apply every_not_null_false.
Qed.

(** C10. The terminal-state check of the search, with its own table of
    triples, agrees with the rules engine on every board:
    [checkGameState] returns a symbol exactly when [getGameResult]
    returns a win of that symbol, "draw" exactly when it returns a draw,
    and [null] exactly when it returns [null]. *)
Theorem checkGameState_agrees (b : board) :
  (∀ m, AI.checkGameState b = StateWinner m
        ↔ ∃ l, Logic.getGameResult b
               = Some {| winner := WinnerMark m; combination := l |}) ∧
  (AI.checkGameState b = StateDraw
   ↔ ∃ l, Logic.getGameResult b
          = Some {| winner := WinnerDraw; combination := l |}) ∧
  (AI.checkGameState b = StateNull ↔ Logic.getGameResult b = None).
Proof.
  rewrite checkGameState_getGameResult.
  destruct (Logic.getGameResult b) as [[[m'|] l]|]; cbn [resultState];
    (split; [intros m|]; split).
  - intros [= ->]. by exists l.
  - by intros [l' [= ->]].
  - split; [done|by intros [l' ?]].
  - split; done.
  - done.
  - by intros [l' ?].
  - split; [by exists l|done].
  - split; done.
  - done.
  - by intros [l' ?].
  - split; [done|by intros [l' ?]].
  - split; done.
Qed.

(** * The search *)

(** C5. [minimax] and [findBestMove] return with the board as it was
    handed to them, whatever the board: every trial is taken back, also
    in the recursive calls, which are [minimax_rec] with the levels left
    to it, at least one more than the board has empty cells. *)
Theorem search_restores_board (ai : AIPlayer) (b : board) (depth : Z)
    (isMaximizing : bool) :
  (∃ s, AI.minimax ai depth isMaximizing b = Some (s, b)) ∧
  (∃ r, AI.findBestMove ai b = Some (r, b)) ∧
  (∀ extra : nat,
     ∃ s, AI.minimax_rec (S (count_null b) + extra) ai depth isMaximizing b
          = Some (s, b)).
Proof.
  repeat split.
  - rewrite minimax_eq. eauto.
  - rewrite findBestMove_eq. eauto.
  - intros extra. apply minimax_rec_restores. lia.
Qed.

(** C3. For a player with two distinct symbols, on every board and at
    every depth, [minimax] returns [10 - depth] when the player's symbol
    has won, [depth - 10] when the opponent's has, [0] on a draw; on a
    board still in play the maximizing layer returns the greatest, over
    the empty cells, of the score of [minimax] one level deeper in the
    minimizing layer with the player's symbol in that cell, and the
    minimizing layer the least of the scores of the maximizing layer
    with the opponent's symbol in the cell. *)
Theorem minimax_spec (ai : AIPlayer) (depth : Z) (isMaximizing : bool)
    (b : board) :
  aiSymbol ai ≠ humanSymbol ai →
  ∃ s, AI.minimax ai depth isMaximizing b = Some (s, b) ∧
       minimaxPost ai depth isMaximizing b s.
Proof.
  intros Hd. exists (minimaxScore ai depth isMaximizing b).
  split; [apply minimax_eq|].
  rewrite minimaxScore_unfold, checkGameState_getGameResult.
  unfold minimaxPost, Logic.getGameResult, Logic.checkWinner, Logic.checkDraw.
  destruct (Logic.checkWinnerIn b Logic.winningCombinations) as [[[m|] l]|] eqn:E;
    cbn [resultState AI.terminalScore].
  - split; intros ->.
    + by rewrite bool_decide_eq_true_2.
    + rewrite bool_decide_eq_false_2 by done.
      by rewrite bool_decide_eq_true_2.
  - done.
  - destruct (every_not_null b) eqn:Hfull; cbn [resultState AI.terminalScore];
      [done|].
    apply every_not_null_false in Hfull as (i0 & _ & Hi0).
    destruct isMaximizing; [by eapply bestOver_max|by eapply bestOver_min].
Qed.

Lemma minimax_spec_witness :
  aiSymbol theAI ≠ humanSymbol theAI ∧
  ∃ s, AI.minimax theAI 2 true
         [str X; str O; str X; null; str O; null; null; str X; null]
       = Some (s, [str X; str O; str X; null; str O; null; null; str X; null])
       ∧ minimaxPost theAI 2 true
           [str X; str O; str X; null; str O; null; null; str X; null] s.
Proof.
  split; [done|].
  exact (minimax_spec theAI 2 true
           [str X; str O; str X; null; str O; null; null; str X; null]
           ltac:(done)).
Defined.

(** C4. For a player with two distinct symbols, [findBestMove] returns
    [null] exactly when the board has no empty cell; otherwise it returns
    an empty cell whose score (the player's symbol placed there, then
    [minimax(board, 0, false)]) is the greatest among the empty cells,
    and strictly greater than the score of every empty cell before it:
    the first cell of greatest score in index order. *)
Theorem findBestMove_spec (ai : AIPlayer) (b : board) :
  aiSymbol ai ≠ humanSymbol ai →
  ∃ r, AI.findBestMove ai b = Some (r, b) ∧ findBestMovePost ai b r.
Proof.
  intros Hd. rewrite findBestMove_eq. eexists; split; [done|].
  pose proof (best_move_inv (moveScore ai b) b (length b)) as Hinv.
  cbv zeta in Hinv. fold (bestMoveOver (moveScore ai b) b) in Hinv.
  destruct (bestMoveOver (moveScore ai b) b) as [s r]. cbn [fst snd] in *.
  destruct Hinv as (H1 & H2 & H3). unfold findBestMovePost, emptyCell.
  destruct r as [k|].
  - destruct H1 as (Hk & Hnull & Hbefore). subst s. split.
    + split; [done|]. intros Hno. by destruct (Hno k).
    + repeat split; try done.
      intros j Hj. apply H2; [by apply get_null_lt|done].
  - split; [|done]. split; [|done]. intros _ i Hi.
    destruct (moveScore_finite ai Hd b i) as [z Hz].
    rewrite H1 in Hz; [done|by apply get_null_lt|done].
Qed.

Lemma findBestMove_spec_witness :
  aiSymbol theAI ≠ humanSymbol theAI ∧
  ∃ r, AI.findBestMove theAI
         [str X; str O; str X; null; str O; null; null; str X; null]
       = Some (r, [str X; str O; str X; null; str O; null; null; str X; null])
       ∧ findBestMovePost theAI
           [str X; str O; str X; null; str O; null; null; str X; null] r.
Proof.
  split; [done|].
  exact (findBestMove_spec theAI
           [str X; str O; str X; null; str O; null; null; str X; null]
           ltac:(done)).
Defined.


(** * The session *)

Section Session.

Implicit Types (g : TicTacToeGame) (s : GameState) (index : nat).

(** A click that [handleCellClick] does not take up leaves everything
    as it was. *)
Lemma handleCellClick_rejected g index :
  Config.isAITurn (config g) (currentPlayer (state g))
  || negb (State.makeMove (state g) index).1 = true →
  Game.handleCellClick g index = g.
Proof.
  unfold Game.handleCellClick.
  destruct (Config.isAITurn (config g) (currentPlayer (state g))); [done|].
  by destruct (State.makeMove (state g) index) as [[] s].
Qed.

(** [makeMove] does not touch the turn. *)
Lemma makeMove_currentPlayer s index :
  currentPlayer (State.makeMove s index).2 = currentPlayer s.
Proof.
  unfold State.makeMove.
  by destruct (truthy (get (gboard s) index) || negb (gameActive s)).
Qed.

(** [updateCell] throws exactly for an index past the nine cells. *)
Lemma updateCell_cases index :
  (index < 9)%nat ∧ UI.updateCell index = Some tt ∨
  (9 ≤ index)%nat ∧ UI.updateCell index = None.
Proof.
  unfold UI.updateCell, UI.cells.
  destruct (Nat.ltb_spec index 9); [by left|by right].
Qed.

Lemma updateCell_lt index : (index < 9)%nat → UI.updateCell index = Some tt.
Proof.
  intros Hlt. destruct (updateCell_cases index) as [[_ ?]|[? _]]; [done|lia].
Qed.

Lemma updateCell_ge index : (9 ≤ index)%nat → UI.updateCell index = None.
Proof.
  intros Hge. destruct (updateCell_cases index) as [[? _]|[_ ?]]; [lia|done].
Qed.

(** A click that [makeMove] takes up at an index without a cell on the
    page writes the board and nothing more: the turn stays, the game
    stays active and no move of the computer is scheduled. *)
Lemma handleCellClick_off_page g index s :
  (9 ≤ index)%nat →
  Config.isAITurn (config g) (currentPlayer (state g)) = false →
  State.makeMove (state g) index = (true, s) →
  Game.handleCellClick g index = Game.withState g s ∧
  currentPlayer s = currentPlayer (state g) ∧
  gameActive s = gameActive (state g).
Proof.
  intros Hge Hturn Hm. unfold Game.handleCellClick.
  rewrite Hturn, Hm, (updateCell_ge index Hge). split; [done|].
  revert Hm. unfold State.makeMove.
  destruct (truthy (get (gboard (state g)) index) || negb (gameActive (state g)));
    [done|]. by intros [= <-].
Qed.

End Session.

(** C6, as the code has it. [makeMove] returns false, and leaves the
    state as it was, exactly when the target cell already holds a symbol
    or the game is flagged inactive. In every other case, also for an
    index past the end of the board, which it does not check, it writes
    the current symbol at that index, leaves the other cells, the turn,
    the flag and the scores as they were, and returns true; within the
    board the number of cells stays the same. *)
Theorem makeMove_spec (s : GameState) (index : nat) :
  let '(ok, s') := State.makeMove s index in
  (ok = false ↔ (∃ m, get (gboard s) index = str m) ∨ gameActive s = false) ∧
  (ok = false → s' = s) ∧
  (ok = true →
     get (gboard s') index = str (currentPlayer s) ∧
     (∀ j : nat, j ≠ index → get (gboard s') j = get (gboard s) j) ∧
     ((index < length (gboard s))%nat → length (gboard s') = length (gboard s)) ∧
     currentPlayer s' = currentPlayer s ∧
     gameActive s' = gameActive s ∧
     scores s' = scores s).
Proof.
  unfold State.makeMove.
  destruct (get (gboard s) index) as [| |m] eqn:Hc, (gameActive s) eqn:Ha;
    cbn [truthy orb negb gboard currentPlayer gameActive scores];
    repeat split; try done; try (intros [[m' ?]|?]; done); eauto;
    try (by intros; apply get_set_eq);
    try (by intros; apply get_set_ne);
    try (by intros; apply length_set_lt).
Qed.

(** C6 does not hold as stated: on the fresh board of an active game the
    index 9, outside 0-8, is accepted, and the board grows by a cell
    that holds the symbol. *)
Lemma makeMove_accepts_index_9 :
  State.makeMove (State.new None) 9 ≠ (false, State.new None) ∧
  State.makeMove (State.new None) 9
  = (true, {| gboard := emptyBoard ++ [str X]; currentPlayer := X;
              gameActive := true;
              scores := {| scoreX := 0; scoreO := 0; scoreDraw := 0 |} |}).
Proof. split; [discriminate|reflexivity]. Qed.

(** C7. The turn changes hands exactly on a move that is taken up and
    leaves the game in play, for every move on one of the nine cells. A
    click during the computer's turn changes nothing. Otherwise
    [handleCellClick] calls [makeMove]: when that returns false, or when
    the board it leaves is finished, the current symbol is as before;
    when it returns true and the board is still in play, the current
    symbol is the other one. The same holds of the move that the
    callback of [makeAIMove] submits. *)
Theorem turn_alternates (g : TicTacToeGame) (index : nat) :
  (index < 9)%nat →
  (Config.isAITurn (config g) (currentPlayer (state g)) = true →
   Game.handleCellClick g index = g) ∧
  (Config.isAITurn (config g) (currentPlayer (state g)) = false →
   let '(ok, s) := State.makeMove (state g) index in
   let g' := Game.handleCellClick g index in
   (ok = false ∨ Logic.getGameResult (gboard s) ≠ None →
    currentPlayer (state g') = currentPlayer (state g)) ∧
   (ok = true ∧ Logic.getGameResult (gboard s) = None →
    currentPlayer (state g') = otherMark (currentPlayer (state g)))) ∧
  (let '(ok, s) := State.makeMove (state g) index in
   let g' := Game.applyBestMove g (Some index) in
   (ok = false ∨ Logic.getGameResult (gboard s) ≠ None →
    currentPlayer (state g') = currentPlayer (state g)) ∧
   (ok = true ∧ Logic.getGameResult (gboard s) = None →
    currentPlayer (state g') = otherMark (currentPlayer (state g)))) ∧
  Game.applyBestMove g None = g.
Proof.
  intros Hcell. pose proof (updateCell_lt index Hcell) as Hui.
  repeat split.
  - intros H. apply handleCellClick_rejected. by rewrite H.
  - intros Hturn. unfold Game.handleCellClick. rewrite Hturn, Hui.
    pose proof (makeMove_currentPlayer (state g) index) as Hp.
    destruct (State.makeMove (state g) index) as [[] s]; cbn [snd] in Hp.
    + cbn [Game.withState state].
      destruct (Logic.getGameResult (gboard s)) as [r|]; split.
      * intros _. destruct r as [[[]|] l]; exact Hp.
      * by intros [_ ?].
      * by intros [?|?].
      * intros _.
        match goal with |- context [if ?c then _ else _] => destruct c end;
          cbn; rewrite Hp; by destruct (currentPlayer (state g)).
    + split; [done|by intros [? _]].
  - unfold Game.applyBestMove. rewrite Hui.
    pose proof (makeMove_currentPlayer (state g) index) as Hp.
    destruct (State.makeMove (state g) index) as [[] s]; cbn [snd] in Hp.
    + cbn [Game.withState state].
      destruct (Logic.getGameResult (gboard s)) as [r|]; split.
      * intros _. destruct r as [[[]|] l]; exact Hp.
      * by intros [_ ?].
      * by intros [?|?].
      * intros _. cbn. rewrite Hp. by destruct (currentPlayer (state g)).
    + split; [done|by intros [? _]].
Qed.

(** C7 at work: in a fresh session of two players the click on the
    centre is taken up and passes the turn from X to O, and the same
    click again, now on a cell that holds a symbol, leaves the turn. *)
Lemma turn_alternates_witness :
  (4 < 9)%nat ∧
  currentPlayer (state (Game.handleCellClick (Game.new None) 4)) = O ∧
  currentPlayer (state (Game.handleCellClick
                          (Game.handleCellClick (Game.new None) 4) 4)) = O.
Proof.
  assert (4 < 9)%nat as Hcell by lia.
  split; [exact Hcell|]. split.
  - exact (proj2 (proj1 (proj2 (turn_alternates (Game.new None) 4 Hcell))
                    eq_refl)
             (conj eq_refl eq_refl)).
  - exact (proj1 (proj1 (proj2 (turn_alternates
                                  (Game.handleCellClick (Game.new None) 4)
                                  4 Hcell))
                    eq_refl)
             (or_introl eq_refl)).
Defined.

(** C9. [resetGame] leaves a board of nine empty cells, the first symbol
    to move and the game active, and keeps the scores, the configuration
    (mode, names, the computer's symbol) and the computer player as they
    were. *)
Theorem resetGame_spec (g : TicTacToeGame) :
  let g' := Game.resetGame g in
  gboard (state g') = replicate 9 null ∧
  currentPlayer (state g') = X ∧
  gameActive (state g') = true ∧
  scores (state g') = scores (state g) ∧
  config g' = config g ∧
  ai g' = ai g.
Proof.
  unfold Game.resetGame. cbn [Game.withState state config currentPlayer].
  by destruct (Config.isAITurn _ _).
Qed.

(** * Scores read from a checked table *)

Section Table.

Implicit Types (b : board) (T : table) (ai : AIPlayer).

Lemma foldl_opt_none {A} (step : A → nat → score → A) (P : nat → bool)
    (f : nat → option score) (l : list nat) :
  foldl (λ acc i, if P i then match acc, f i with
                               | Some a, Some c => Some (step a i c)
                               | _, _ => None
                               end
                  else acc) None l = None.
Proof. induction l as [|i l IH]; [done|]. cbn [foldl]. by destruct (P i). Qed.

Lemma foldl_opt_some {A} (step : A → nat → score → A) (P : nat → bool)
    (f : nat → option score) (h : nat → score) (l : list nat) :
  (∀ i c, P i = true → f i = Some c → c = h i) →
  ∀ acc r,
    foldl (λ acc i, if P i then match acc, f i with
                                 | Some a, Some c => Some (step a i c)
                                 | _, _ => None
                                 end
                    else acc) (Some acc) l = Some r →
    r = foldl (λ a i, if P i then step a i (h i) else a) acc l.
Proof.
  intros Hf. induction l as [|i l IH]; intros acc r; cbn [foldl].
  - congruence.
  - destruct (P i) eqn:E; [|apply IH].
    destruct (f i) as [c|] eqn:Ec.
    + rewrite <- (Hf i c E Ec). apply IH.
    + by rewrite foldl_opt_none.
Qed.

(** A fold over scores read from the table, when it succeeds, is the
    fold over the scores the table stands for. *)
Lemma foldCellsOpt_sound {A} (step : A → nat → score → A)
    (f : nat → option score) (h : nat → score) b (init r : A) :
  (∀ i c, get b i = null → f i = Some c → c = h i) →
  foldCellsOpt step f b init = Some r → r = foldCells step h b init.
Proof.
  intros Hf. unfold foldCellsOpt, foldCells.
  apply (foldl_opt_some step (λ i, strict_eq (get b i) null)).
  intros i c Hi. apply Hf. by apply strict_eq_true.
Qed.

Lemma bestOver_foldCells better init (h : nat → score) b :
  bestOver better init h b = foldCells (λ a _ c, better c a) h b init.
Proof. reflexivity. Qed.

Lemma bestMoveOver_foldCells (h : nat → score) b :
  bestMoveOver h b
  = foldCells (λ best i c, if score_gt c (fst best) then (c, Some i) else best)
      h b (NegInf, None).
Proof. reflexivity. Qed.

Lemma lookupT_entry T b depth isMax s :
  lookupT T b depth isMax = Some s →
  T !! slot b depth isMax = Some (b, depth, isMax, s).
Proof.
  unfold lookupT.
  destruct (T !! slot b depth isMax) as [[[[b' d'] m'] s']|]; [|done].
  case_bool_decide as H; [|done]. destruct H as (-> & -> & ->). congruence.
Qed.

Lemma tableOk_entry ai T b depth isMax s :
  tableOk ai T = true →
  lookupT T b depth isMax = Some s →
  stepScore ai T b depth isMax = Some s.
Proof.
  intros Hok Hl. apply lookupT_entry in Hl.
  unfold tableOk in Hok. rewrite forallb_forall in Hok.
  assert (In (slot b depth isMax, (b, depth, isMax, s)) (map_to_list T))
    as Hin by apply list_elem_of_In, elem_of_map_to_list, Hl.
  specialize (Hok _ Hin). cbn [snd entryOk] in Hok.
  by apply bool_decide_eq_true in Hok.
Qed.

(** The scores of a checked table are the scores of [minimax]. *)
Lemma tableOk_sound ai T :
  tableOk ai T = true →
  ∀ (n : nat) b depth isMax s,
    (count_null b < n)%nat →
    lookupT T b depth isMax = Some s →
    minimaxScore ai depth isMax b = s.
Proof.
  intros Hok. induction n as [|n IH]; intros b depth isMax s Hn Hl; [lia|].
  apply (tableOk_entry ai) in Hl; [|done].
  rewrite minimaxScore_unfold. unfold stepScore in Hl.
  destruct (AI.terminalScore ai (AI.checkGameState b) depth) as [s0|];
    [congruence|].
  destruct isMax; rewrite bestOver_foldCells; symmetry.
  - eapply foldCellsOpt_sound; [|exact Hl].
    intros i c Hi Hc. symmetry. eapply IH; [|exact Hc].
    pose proof (count_null_set b i (aiSymbol ai) Hi). lia.
  - eapply foldCellsOpt_sound; [|exact Hl].
    intros i c Hi Hc. symmetry. eapply IH; [|exact Hc].
    pose proof (count_null_set b i (humanSymbol ai) Hi). lia.
Qed.

Lemma lookupT_sound ai T b depth isMax s :
  tableOk ai T = true →
  lookupT T b depth isMax = Some s →
  AI.minimax ai depth isMax b = Some (s, b).
Proof.
  intros Hok Hl. rewrite minimax_eq.
  by rewrite (tableOk_sound ai T Hok (S (count_null b)) b depth isMax s
                (Nat.lt_succ_diag_r _) Hl).
Qed.

(** The move read from a checked table is the move of [findBestMove]. *)
Lemma findBestMoveT_sound ai T b r :
  tableOk ai T = true →
  findBestMoveT ai T b = Some r →
  AI.findBestMove ai b = Some (r, b).
Proof.
  intros Hok Hr. rewrite findBestMove_eq, bestMoveOver_foldCells.
  unfold findBestMoveT in Hr.
  destruct (foldCellsOpt _ _ b (NegInf, None)) as [best|] eqn:E; [|done].
  cbn in Hr. injection Hr as <-.
  apply (foldCellsOpt_sound _ _ (moveScore ai b)) in E; [by subst|].
  intros i c Hi Hc. symmetry. unfold moveScore.
  eapply (tableOk_sound ai T Hok (S (count_null (set b i (str (aiSymbol ai)))))); [lia|done].
Qed.

End Table.

(** * Courses of a session against the computer *)

Section Play.

Implicit Types (g : TicTacToeGame) (T : table) (es : list Game.event).

Lemma xWon_false (b : board) : xWon b = false ↔ ¬ wonBy b X.
Proof.
  unfold xWon, wonBy. split.
  - intros H [l Hl]. by rewrite Hl in H.
  - intros H. destruct (Logic.getGameResult b) as [[[[]|] l]|]; try done.
    destruct H. by exists l.
Qed.

Lemma run_cons g e es : Game.run g (e :: es) = Game.run (Game.step g e) es.
Proof. done. Qed.

(** What [explore] has checked holds of every course of play. *)
Lemma explore_sound T :
  tableOk theAI T = true →
  ∀ es g (fuel : nat),
    Forall playEvent es →
    explore fuel T g = true →
    xWon (gboard (state (Game.run g es))) = false.
Proof.
  intros Hok. induction es as [|e es IH]; intros g fuel Hes Hex.
  - destruct fuel as [|fuel]; [done|]. cbn [explore] in Hex.
    rewrite !andb_true_iff in Hex. destruct Hex as [[[Hx _] _] _].
    by apply negb_true_iff in Hx.
  - apply Forall_cons in Hes as [He Hes]. rewrite run_cons.
    destruct fuel as [|fuel]; [done|]. pose proof Hex as Hex'.
    cbn [explore] in Hex. rewrite !andb_true_iff in Hex.
    destruct Hex as [[[_ Hai] Hclicks] Htimer].
    apply bool_decide_eq_true in Hai.
    destruct e as [index| | | | |]; try done; cbn [Game.step].
    + rewrite forallb_forall in Hclicks.
      assert (In index (seq 0 9)) as Hin by (apply in_seq; cbn in He; lia).
      specialize (Hclicks _ Hin). cbn beta in Hclicks.
      destruct (rejected g index) eqn:R.
      * rewrite handleCellClick_rejected by done. by apply (IH g (S fuel)).
      * by apply (IH _ fuel).
    + unfold Game.aiMoveTimeout.
      destruct (pendingAIMoves g) as [|n]; [by apply (IH g (S fuel))|].
      destruct (findBestMoveT theAI T (gboard (state g))) as [r|] eqn:Hr;
        [|done].
      unfold Game.aiMoveCallback. cbn [Game.withPending ai state].
      rewrite Hai, (findBestMoveT_sound theAI T _ r Hok Hr).
      by apply (IH _ fuel).
Qed.

(** The names and the scores have no part in the course of play. *)
Lemma samePlay_step g1 g2 e :
  playEvent e → samePlay g1 g2 → samePlay (Game.step g1 e) (Game.step g2 e).
Proof.
  destruct g1 as [[m1 nx1 no1 ap1 hp1] [b1 p1 a1 sc1] ai1 n1].
  destruct g2 as [[m2 nx2 no2 ap2 hp2] [b2 p2 a2 sc2] ai2 n2].
  unfold samePlay. cbn. intros He (-> & -> & -> & -> & -> & -> & ->).
  destruct e as [index| | | | |]; try done; cbn.
  - unfold Game.handleCellClick, State.makeMove, Config.isAITurn. cbn.
    destruct (bool_decide (m2 = ModeAI) && bool_decide (p2 = ap2)); [done|].
    destruct (truthy (get b2 index) || negb a2); [done|]. cbn.
    destruct (UI.updateCell index); [|done].
    destruct (Logic.getGameResult _) as [r|]; [done|]. cbn.
    by destruct (bool_decide (m2 = ModeAI) && bool_decide (_ = ap2)).
  - unfold Game.aiMoveTimeout. cbn. destruct n2 as [|n]; [done|].
    unfold Game.aiMoveCallback. cbn. destruct ai2 as [player|]; [|done].
    destruct (AI.findBestMove player b2) as [[[k|] ?]|]; try done.
    unfold Game.applyBestMove, State.makeMove. cbn.
    destruct (truthy (get b2 k) || negb a2); [done|]. cbn.
    destruct (UI.updateCell k); [|done].
    by destruct (Logic.getGameResult _) as [r|].
Qed.

Lemma samePlay_run es : ∀ g1 g2,
  Forall playEvent es → samePlay g1 g2 →
  samePlay (Game.run g1 es) (Game.run g2 es).
Proof.
  induction es as [|e es IH]; intros g1 g2 Hes Hs; [done|].
  apply Forall_cons in Hes as [He Hes]. rewrite !run_cons.
  by apply IH, samePlay_step.
Qed.

Lemma aiSession_samePlay loaded name :
  samePlay (Game.aiSession loaded name) firstSession.
Proof.
  unfold samePlay, firstSession, Game.aiSession, Game.startGame. cbn.
  repeat split; by repeat case_bool_decide.
Qed.

End Play.

(** ** What follows from the facts computed on a table *)

Section Facts.

Variable T : table.
Hypothesis facts : tableFacts T = true.

Lemma tableFacts_inv :
  tableOk theAI T = true ∧
  explore 20 T firstSession = true ∧
  lookupT T emptyBoard 0 false = Some (Fin 0) ∧
  lookupT T emptyBoard 0 true = Some (Fin 0) ∧
  findBestMoveT theAI T emptyBoard = Some (Some 0%nat).
Proof.
  revert facts. unfold tableFacts.
  generalize (tableOk theAI T) (explore 20 T firstSession).
  intros b1 b2. rewrite !andb_true_iff, !bool_decide_eq_true. tauto.
Qed.

Lemma emptyBoard_minimax_from (isMaximizing : bool) :
  AI.minimax theAI 0 isMaximizing emptyBoard = Some (Fin 0, emptyBoard).
Proof.
  destruct tableFacts_inv as (Hok & _ & Hmin & Hmax & _).
  destruct isMaximizing; eapply lookupT_sound; eassumption.
Qed.

Lemma emptyBoard_findBestMove_from :
  AI.findBestMove theAI emptyBoard = Some (Some 0%nat, emptyBoard).
Proof.
  destruct tableFacts_inv as (Hok & _ & _ & _ & Hmove).
  eapply findBestMoveT_sound; eassumption.
Qed.

Lemma never_won_by_X_from (loaded : option Scores) (name : string)
    (es : list Game.event) :
  Forall playEvent es →
  ¬ wonBy (gboard (state (Game.run (Game.aiSession loaded name) es))) X.
Proof.
  intros Hes. apply xWon_false.
  destruct (samePlay_run es _ _ Hes (aiSession_samePlay loaded name))
    as (_ & _ & _ & _ & -> & _).
  destruct tableFacts_inv as (Hok & Hex & _).
  eapply explore_sound; eassumption.
Qed.

End Facts.

(** ** The table of the development *)

Lemma scoreTable_facts : tableFacts scoreTable = true.
Proof. vm_compute. reflexivity. Qed.

Lemma emptyBoard_minimax (isMaximizing : bool) :
  AI.minimax theAI 0 isMaximizing emptyBoard = Some (Fin 0, emptyBoard).
Proof. exact (emptyBoard_minimax_from scoreTable scoreTable_facts isMaximizing). Qed.

Lemma emptyBoard_findBestMove :
  AI.findBestMove theAI emptyBoard = Some (Some 0%nat, emptyBoard).
Proof. exact (emptyBoard_findBestMove_from scoreTable scoreTable_facts). Qed.

Lemma never_won_by_X (loaded : option Scores) (name : string)
    (es : list Game.event) :
  Forall playEvent es →
  ¬ wonBy (gboard (state (Game.run (Game.aiSession loaded name) es))) X.
Proof. exact (never_won_by_X_from scoreTable scoreTable_facts loaded name es). Qed.

(** * The computer does not lose *)

(** C1. In a session against the computer, which plays O with the moves
    of [findBestMove], no sequence of clicks on the nine cells and of
    expiring timers leads to a board that shows a win of X, whatever the
    name and the scores the session started with. The score of [minimax]
    on the empty board is 0, a draw, with either side to move. *)
Theorem ai_never_loses :
  (∀ (loaded : option Scores) (name : string) (es : list Game.event),
     Forall playEvent es →
     ¬ wonBy (gboard (state (Game.run (Game.aiSession loaded name) es))) X) ∧
  AI.minimax theAI 0 false emptyBoard = Some (Fin 0, emptyBoard) ∧
  AI.minimax theAI 0 true emptyBoard = Some (Fin 0, emptyBoard) ∧
  (∀ (loaded : option Scores) (name : string),
     ai (Game.aiSession loaded name) = Some theAI).
Proof.
  split; [exact never_won_by_X|].
  split; [exact (emptyBoard_minimax false)|].
  split; [exact (emptyBoard_minimax true)|].
  reflexivity.
Qed.

Lemma ai_never_loses_witness :
  Forall playEvent
    [Game.CellClick 4; Game.AIMoveTimeout; Game.CellClick 8;
     Game.AIMoveTimeout; Game.CellClick 1; Game.AIMoveTimeout] ∧
  ¬ wonBy (gboard (state (Game.run (Game.aiSession None "")
                            [Game.CellClick 4; Game.AIMoveTimeout;
                             Game.CellClick 8; Game.AIMoveTimeout;
                             Game.CellClick 1; Game.AIMoveTimeout]))) X.
Proof.
  assert (Forall playEvent
            [Game.CellClick 4; Game.AIMoveTimeout; Game.CellClick 8;
             Game.AIMoveTimeout; Game.CellClick 1; Game.AIMoveTimeout])
    as Hes by (repeat constructor; cbn; lia).
  split; [exact Hes|].
  exact (proj1 ai_never_loses None "" _ Hes).
Defined.

(** * A reset with a move of the computer still to come *)

(** C8, on the code. In a session against the computer the human plays
    cell 0 and resets the game before the timer of the computer's move
    expires. The reset leaves a fresh board with X to move and the timer
    still set. When it expires, its callback puts the current symbol,
    X, in cell 0 of the new board and passes the turn to O; no timer is
    left, and from then on every click is ignored. *)
Theorem stale_callback_moves :
  let g := Game.run (Game.aiSession None "")
             [Game.CellClick 0; Game.ResetClick] in
  let g' := Game.step g Game.AIMoveTimeout in
  (gboard (state g) = emptyBoard ∧ currentPlayer (state g) = X ∧
   gameActive (state g) = true ∧ pendingAIMoves g = 1%nat) ∧
  g' ≠ g ∧
  gboard (state g')
  = [str X; null; null; null; null; null; null; null; null] ∧
  currentPlayer (state g') = O ∧
  pendingAIMoves g' = 0%nat ∧
  ∀ index : nat, Game.handleCellClick g' index = g'.
Proof.
  cbv zeta.
  assert (Game.step (Game.run (Game.aiSession None "")
                       [Game.CellClick 0; Game.ResetClick]) Game.AIMoveTimeout
          = Game.applyBestMove
              (Game.withPending
                 (Game.run (Game.aiSession None "")
                    [Game.CellClick 0; Game.ResetClick]) 0) (Some 0%nat))
    as ->.
  { cbn [Game.step]. unfold Game.aiMoveTimeout, Game.aiMoveCallback.
    change (pendingAIMoves _) with 1%nat. cbv iota.
    change (ai (Game.withPending _ 0)) with (Some theAI). cbv iota.
    change (gboard (state (Game.withPending _ 0))) with emptyBoard.
    by rewrite emptyBoard_findBestMove. }
  repeat split; done.
Qed.


(** * The controller as a whole *)

Section Controller.

Implicit Types (g : TicTacToeGame) (st : GameState) (b : board)
  (e : Game.event) (es : list Game.event).

Lemma makeMove_true st index s :
  State.makeMove st index = (true, s) →
  truthy (get (gboard st) index) = false ∧ gameActive st = true ∧
  s = placed st index.
Proof.
  unfold State.makeMove, placed.
  destruct (truthy (get (gboard st) index)); [done|].
  destruct (gameActive st); [|done]. cbn. by intros [= <-].
Qed.

Lemma applyBestMove_outcome g r :
  (state (Game.applyBestMove g r) = state g ∨
   ∃ k, r = Some k ∧ movedAt (state g) k (state (Game.applyBestMove g r))) ∧
  config (Game.applyBestMove g r) = config g ∧
  ai (Game.applyBestMove g r) = ai g ∧
  pendingAIMoves (Game.applyBestMove g r) = pendingAIMoves g.
Proof.
  unfold Game.applyBestMove. destruct r as [k|];
    [|repeat split; try done; by left].
  destruct (State.makeMove (state g) k) as [[] s] eqn:Hm;
    [|repeat split; try done; by left].
  apply makeMove_true in Hm as (Ht & Ha & ->).
  cbn [Game.withState state]. unfold movedAt.
  destruct (UI.updateCell k) eqn:Hu;
    [|repeat split; try done; right; exists k; by rewrite Hu].
  destruct (Logic.getGameResult (gboard (placed (state g) k))) as [r|] eqn:Hr;
    (repeat split; try done); right; exists k; by rewrite Hu, Hr.
Qed.

Lemma handleCellClick_outcome g index :
  (state (Game.handleCellClick g index) = state g ∨
   movedAt (state g) index (state (Game.handleCellClick g index))) ∧
  config (Game.handleCellClick g index) = config g ∧
  ai (Game.handleCellClick g index) = ai g.
Proof.
  unfold Game.handleCellClick.
  destruct (Config.isAITurn (config g) (currentPlayer (state g)));
    [repeat split; try done; by left|].
  destruct (State.makeMove (state g) index) as [[] s] eqn:Hm;
    [|repeat split; try done; by left].
  apply makeMove_true in Hm as (Ht & Ha & ->).
  cbn [Game.withState state config]. unfold movedAt.
  destruct (UI.updateCell index); [|repeat split; try done; by right].
  destruct (Logic.getGameResult (gboard (placed (state g) index)))
    as [r|] eqn:Hr.
  - repeat split; try done. by right.
  - match goal with |- context [if ?c then _ else _] => destruct c end;
      (repeat split; try done); by right.
Qed.

Lemma aiMoveTimeout_outcome g :
  (state (Game.aiMoveTimeout g) = state g ∨
   ∃ player k b',
     ai g = Some player ∧
     AI.findBestMove player (gboard (state g)) = Some (Some k, b') ∧
     movedAt (state g) k (state (Game.aiMoveTimeout g))) ∧
  config (Game.aiMoveTimeout g) = config g ∧
  ai (Game.aiMoveTimeout g) = ai g.
Proof.
  unfold Game.aiMoveTimeout. destruct (pendingAIMoves g) as [|n];
    [repeat split; try done; by left|].
  unfold Game.aiMoveCallback.
  change (ai (Game.withPending g n)) with (ai g).
  change (state (Game.withPending g n)) with (state g).
  destruct (ai g) as [player|] eqn:Hai;
    [|repeat split; try done; by left].
  destruct (AI.findBestMove player (gboard (state g))) as [[r b']|] eqn:Hf;
    [|repeat split; try done; by left].
  destruct (applyBestMove_outcome (Game.withPending g n) r)
    as ([H1|(k & -> & H1)] & H2 & H3 & _).
  - repeat split; try done; [by left|by rewrite H3].
  - repeat split; try done; [|by rewrite H3].
    right. by exists player, k, b'.
Qed.

Lemma click_moveOutcome g index :
  moveOutcome (state g) (state (Game.handleCellClick g index)).
Proof.
  destruct (handleCellClick_outcome g index) as ([H|H] & _); [by left|].
  right. by exists index.
Qed.

Lemma timeout_moveOutcome g :
  moveOutcome (state g) (state (Game.aiMoveTimeout g)).
Proof.
  destruct (aiMoveTimeout_outcome g) as ([H|(p & k & b' & _ & _ & H)] & _);
    [by left|].
  right. by exists k.
Qed.

(** What each event does to the state of the game. *)
Lemma step_state g e :
  match e with
  | Game.CellClick _ | Game.AIMoveTimeout =>
      moveOutcome (state g) (state (Game.step g e))
  | Game.ResetClick | Game.BackToSetupClick true =>
      state (Game.step g e) = State.reset (state g)
  | Game.ResetScoreClick true =>
      state (Game.step g e) = State.resetScores (state g)
  | _ => state (Game.step g e) = state g
  end.
Proof.
  destruct e as [index| | |[]|[]|d]; cbn [Game.step].
  - apply click_moveOutcome.
  - apply timeout_moveOutcome.
  - unfold Game.resetGame. cbn [Game.withState state config].
    by match goal with |- context [if ?c then _ else _] => destruct c end.
  - done.
  - done.
  - done.
  - done.
  - unfold Game.startGame. by destruct (setupMode d).
Qed.

(** A property of the state of the game that the construction
    establishes and that moves and resets keep holds all along. *)
Lemma state_invariant (P : GameState → Prop) :
  (∀ loaded, P (State.new loaded)) →
  (∀ st st', P st → moveOutcome st st' → P st') →
  (∀ st, P st → P (State.reset st)) →
  (∀ st, P st → P (State.resetScores st)) →
  ∀ loaded es, P (state (reached loaded es)).
Proof.
  intros Hnew Hmove Hreset Hscores loaded es. unfold reached.
  assert (∀ g, P (state g) → P (state (Game.run g es))) as Hrun.
  { induction es as [|e es IH]; intros g Hg; [done|].
    rewrite run_cons. apply IH. pose proof (step_state g e) as Hs.
    destruct e as [index| | |[]|[]|d]; try (rewrite Hs; auto); eauto. }
  apply Hrun, Hnew.
Qed.

End Controller.

(** ** Lines and moves *)

Section Lines.

Implicit Types (b : board) (m : mark) (t : nat * nat * nat) (i : nat).

Lemma getGameResult_None b :
  Logic.getGameResult b = None →
  (∀ t, t ∈ Logic.winningCombinations → ¬ wins b t) ∧
  ∃ i, (i < length b)%nat ∧ get b i = null.
Proof.
  unfold Logic.getGameResult, Logic.checkWinner, Logic.checkDraw.
  pose proof (checkWinnerIn_spec b Logic.winningCombinations) as Hs.
  destruct (Logic.checkWinnerIn b Logic.winningCombinations) as [r|]; [done|].
  destruct (every_not_null b) eqn:E; [done|]. intros _. split; [done|].
  by apply every_not_null_false.
Qed.

Lemma getGameResult_win b m l :
  Logic.getGameResult b = Some {| winner := WinnerMark m; combination := l |} →
  ∃ t, t ∈ Logic.winningCombinations ∧ lineOf b m t.
Proof.
  unfold Logic.getGameResult, Logic.checkWinner, Logic.checkDraw.
  pose proof (checkWinnerIn_spec b Logic.winningCombinations) as Hs.
  destruct (Logic.checkWinnerIn b Logic.winningCombinations) as [r|].
  - destruct Hs as (k & t & m' & Hk & -> & Hl & _). intros [= <- <-].
    exists t. split; [|done]. apply list_elem_of_lookup. by exists k.
  - by destruct (every_not_null b).
Qed.

(** A line on the board after a move into a cell that held no symbol
    was there before the move, or is a line of the symbol moved. *)
Lemma lineOf_set b i m m' t :
  truthy (get b i) = false →
  lineOf (set b i (str m)) m' t → lineOf b m' t ∨ m' = m.
Proof.
  destruct t as [[a b'] c]. unfold lineOf. intros Hi (Ha & Hb & Hc).
  destruct (decide (a = i)) as [->|Hai];
    [rewrite get_set_eq in Ha; right; congruence|].
  destruct (decide (b' = i)) as [->|Hbi];
    [rewrite get_set_eq in Hb; right; congruence|].
  destruct (decide (c = i)) as [->|Hci];
    [rewrite get_set_eq in Hc; right; congruence|].
  left. by rewrite !get_set_ne in Ha, Hb, Hc.
Qed.

(** A line stays when a symbol is put in a cell that held none. *)
Lemma lineOf_keep b i m m' t :
  truthy (get b i) = false →
  lineOf b m' t → lineOf (set b i (str m)) m' t.
Proof.
  destruct t as [[a b'] c]. unfold lineOf. intros Hi (Ha & Hb & Hc).
  assert (∀ j, get b j = str m' → get (set b i (str m)) j = str m') as Hk.
  { intros j Hj. rewrite get_set_ne; [done|]. intros ->.
    by rewrite Hj in Hi. }
  auto.
Qed.

(** On a board in play, the move that ends the game wins for the
    symbol moved, or draws. *)
Lemma move_result b i m r :
  Logic.getGameResult b = None →
  truthy (get b i) = false →
  Logic.getGameResult (set b i (str m)) = Some r →
  winner r = WinnerMark m ∨ winner r = WinnerDraw.
Proof.
  intros Hb Hi Hr. destruct r as [[m'|] l]; [|by right]. left. cbn.
  apply getGameResult_win in Hr as (t & Ht & Hl).
  apply getGameResult_None in Hb as [Hno _].
  apply lineOf_set in Hl as [Hl| ->]; [|done|done].
  destruct (Hno t Ht). by exists m'.
Qed.

(** The eight triples are triples of cells of the page. *)
Lemma combination_on_page t :
  t ∈ Logic.winningCombinations → (t.1.1 < 9 ∧ t.1.2 < 9 ∧ t.2 < 9)%nat.
Proof.
  unfold Logic.winningCombinations. intros Ht.
  repeat (apply elem_of_cons in Ht as [->|Ht]; [cbn; lia|]).
  by apply elem_of_nil in Ht.
Qed.

(** A write past the nine cells makes no line and breaks none. *)
Lemma lineOf_off_page b i (v : value) m t :
  t ∈ Logic.winningCombinations → (9 ≤ i)%nat →
  lineOf (set b i v) m t ↔ lineOf b m t.
Proof.
  intros Ht Hi. apply combination_on_page in Ht.
  destruct t as [[a b'] c]. cbn in Ht. unfold lineOf.
  by rewrite !get_set_ne by lia.
Qed.

Lemma getGameResult_in_play b :
  (∀ t, t ∈ Logic.winningCombinations → ¬ wins b t) →
  (∃ i, get b i = null) →
  Logic.getGameResult b = None.
Proof.
  intros Hno (i & Hi).
  unfold Logic.getGameResult, Logic.checkWinner, Logic.checkDraw.
  pose proof (checkWinnerIn_spec b Logic.winningCombinations) as Hs.
  destruct (Logic.checkWinnerIn b Logic.winningCombinations) as [r|].
  - destruct Hs as (k & t & m & Hk & _ & Hl & _). destruct (Hno t).
    + apply list_elem_of_lookup. by exists k.
    + by exists m.
  - assert (every_not_null b = false) as ->; [|done].
    apply every_not_null_false. exists i. split; [by apply get_null_lt|done].
Qed.

Lemma emptyOnPage_emptyBoard : emptyOnPage emptyBoard.
Proof. intros i Hi. by apply get_null_lt in Hi. Qed.

(** A symbol written anywhere leaves the empty cells on the page. *)
Lemma emptyOnPage_set b i m : emptyOnPage b → emptyOnPage (set b i (str m)).
Proof.
  intros Hb j Hj. destruct (decide (i = j)) as [->|Hne].
  - by rewrite get_set_eq in Hj.
  - rewrite get_set_ne in Hj by done. by apply Hb.
Qed.

(** A symbol written past the nine cells leaves a board in play in
    play. *)
Lemma in_play_off_page b i m :
  emptyOnPage b → (9 ≤ i)%nat →
  Logic.getGameResult b = None →
  Logic.getGameResult (set b i (str m)) = None.
Proof.
  intros Hb Hi Hr. apply getGameResult_None in Hr as [Hno (j & _ & Hj)].
  apply getGameResult_in_play.
  - intros t Ht [m' Hl]. apply lineOf_off_page in Hl; [|done|done].
    destruct (Hno t Ht). by exists m'.
  - exists j. rewrite get_set_ne; [done|]. apply Hb in Hj. lia.
Qed.

Lemma countMark_insert b i m m' c :
  b !! i = Some c → truthy c = false →
  countMark m' (<[i:=str m]> b)
  = (countMark m' b + if bool_decide (m = m') then 1 else 0)%nat.
Proof.
  unfold countMark. revert i. induction b as [|c0 b IH]; intros [|i] H Hc;
    try discriminate.
  - injection H as ->. cbn [insert list_insert]. rewrite !filter_cons.
    destruct c as [| |m0]; try done;
      (case_bool_decide; repeat case_decide; simplify_eq; cbn; lia).
  - cbn [insert list_insert]. cbn [lookup list_lookup] in H.
    rewrite !(filter_cons _ c0). specialize (IH i H Hc).
    destruct (decide (c0 = str m')); cbn [length];
      [exact (f_equal S IH)|exact IH].
Qed.

(** A move into a cell that held no symbol adds one to the count of
    the symbol moved and leaves the other count. *)
Lemma countMark_set b i m m' :
  truthy (get b i) = false →
  countMark m' (set b i (str m))
  = (countMark m' b + if bool_decide (m = m') then 1 else 0)%nat.
Proof.
  intros Hi. unfold set. case_decide as Hlt.
  - destruct (b !! i) as [c|] eqn:E.
    + apply (countMark_insert b i m m' c); [done|].
      unfold get in Hi. by rewrite E in Hi.
    + apply lookup_ge_None in E. lia.
  - unfold countMark. rewrite !filter_app, !length_app.
    assert (filter (λ cell, cell = str m') (replicate (i - length b) undefined)
            = []) as ->.
    { induction (i - length b)%nat as [|n IH]; [done|]. cbn [replicate].
      by rewrite filter_cons_False. }
    rewrite filter_cons, filter_nil.
    case_bool_decide; case_decide; simplify_eq; cbn; lia.
Qed.

End Lines.

(** ** What every controller keeps, from its construction on *)

(** The flag and the board of a controller agree, and its empty cells
    are cells of the page. *)
Lemma in_play_invariant (loaded : option Scores) (es : list Game.event) :
  let st := state (reached loaded es) in
  (gameActive st = true ↔ Logic.getGameResult (gboard st) = None) ∧
  (gameActive st = true →
   ∃ i : nat, (i < length (gboard st))%nat ∧ get (gboard st) i = null) ∧
  emptyOnPage (gboard st).
Proof.
  cbv zeta.
  apply (state_invariant
           (λ st, (gameActive st = true ↔ Logic.getGameResult (gboard st) = None) ∧
                  (gameActive st = true →
                   ∃ i : nat, (i < length (gboard st))%nat ∧
                              get (gboard st) i = null) ∧
                  emptyOnPage (gboard st))).
  - intros l. cbn. split; [done|]. split; [|apply emptyOnPage_emptyBoard].
    intros _. exists 0%nat. split; [lia|done].
  - intros st st' (Hiff & Hex & Hpage) [->|(index & Ht & Ha & Hm)]; [done|].
    assert (emptyOnPage (gboard (placed st index))) as Hpage'
      by (by apply emptyOnPage_set).
    destruct (updateCell_cases index) as [[Hlt Hu]|[Hge Hu]]; rewrite Hu in Hm.
    + destruct (Logic.getGameResult (gboard (placed st index))) as [r|] eqn:Hr;
        subst st'; cbn [State.updateScore State.setInactive State.switchPlayer
                        gboard gameActive placed] in *.
      * split; [by rewrite Hr|done].
      * rewrite Hr, Ha. split; [done|]. split; [|done]. intros _.
        by apply getGameResult_None in Hr as [_ ?].
    + assert (Logic.getGameResult (gboard (placed st index)) = None) as Hr.
      { apply in_play_off_page; [done|done|by apply Hiff]. }
      subst st'. rewrite Hr. cbn [gameActive placed]. rewrite Ha.
      split; [done|]. split; [|done]. intros _.
      by apply getGameResult_None in Hr as [_ ?].
  - intros st _. cbn. split; [done|]. split; [|apply emptyOnPage_emptyBoard].
    intros _. exists 0%nat. split; [lia|done].
  - intros st H. exact H.
Qed.

(** X1. Whatever events a controller has handled since its construction
    (clicks at any index, timers, resets, score resets, returns to the
    setup, starts), the game is flagged active exactly when the rules
    engine finds its board still in play; an active game has an empty
    cell within the board. *)
Theorem active_iff_in_play (loaded : option Scores) (es : list Game.event) :
  let st := state (reached loaded es) in
  (gameActive st = true ↔ Logic.getGameResult (gboard st) = None) ∧
  (gameActive st = true →
   ∃ i : nat, (i < length (gboard st))%nat ∧ get (gboard st) i = null).
Proof.
  cbv zeta. destruct (in_play_invariant loaded es) as (Hiff & Hex & _).
  by split.
Qed.

(** X3. No event other than a reset or a confirmed return to the setup
    removes or replaces a symbol on the board: a cell that holds a symbol
    before the event holds the same symbol after it. *)
Theorem marks_never_overwritten (g : TicTacToeGame) (e : Game.event)
    (i : nat) (m : mark) :
  match e with
  | Game.ResetClick | Game.BackToSetupClick true => True
  | _ =>
      get (gboard (state g)) i = str m →
      get (gboard (state (Game.step g e))) i = str m
  end.
Proof.
  pose proof (step_state g e) as Hs.
  assert (moveOutcome (state g) (state (Game.step g e)) →
          get (gboard (state g)) i = str m →
          get (gboard (state (Game.step g e))) i = str m) as Hmove.
  { intros [->|(index & Hi & Ha & Hm)] Hc; [done|].
    assert (get (gboard (placed (state g) index)) i = str m) as Hp.
    { cbn [placed gboard]. rewrite get_set_ne; [done|]. intros ->.
      by rewrite Hc in Hi. }
    destruct (UI.updateCell index); [|by rewrite Hm].
    by destruct (Logic.getGameResult (gboard (placed (state g) index)));
      rewrite Hm. }
  destruct e as [index| | |[]|[]|d]; try done; auto; by rewrite Hs.
Qed.

(** X4. The scores change in two ways only. A confirmed score reset
    sets the three counters to zero. An event that ends the game (the
    game was active before it and is not after it) adds exactly one to
    the counter of the result that the rules engine gives for the board,
    the symbol that won or the draw, and leaves the two other counters.
    Every other event, also any click or timer once the game has ended,
    leaves the scores as they were. *)
Theorem score_ledger (g : TicTacToeGame) (e : Game.event) :
  let g' := Game.step g e in
  match e with
  | Game.ResetScoreClick true =>
      scores (state g') = {| scoreX := 0; scoreO := 0; scoreDraw := 0 |}
  | _ =>
      if gameActive (state g) && negb (gameActive (state g')) then
        ∃ r, Logic.getGameResult (gboard (state g')) = Some r ∧
             scoreOf (scores (state g')) (winner r)
             = scoreOf (scores (state g)) (winner r) + 1 ∧
             ∀ w, w ≠ winner r →
                  scoreOf (scores (state g')) w = scoreOf (scores (state g)) w
      else scores (state g') = scores (state g)
  end.
Proof.
  cbv zeta. pose proof (step_state g e) as Hs.
  assert (moveOutcome (state g) (state (Game.step g e)) →
          if gameActive (state g) && negb (gameActive (state (Game.step g e)))
          then ∃ r, Logic.getGameResult (gboard (state (Game.step g e))) = Some r ∧
                    scoreOf (scores (state (Game.step g e))) (winner r)
                    = scoreOf (scores (state g)) (winner r) + 1 ∧
                    ∀ w, w ≠ winner r →
                         scoreOf (scores (state (Game.step g e))) w
                         = scoreOf (scores (state g)) w
          else scores (state (Game.step g e)) = scores (state g)) as Hmove.
  { intros [->|(index & Hi & Ha & Hm)]; [by destruct (gameActive (state g))|].
    rewrite Ha.
    destruct (UI.updateCell index);
      [|rewrite Hm; cbn [gameActive placed]; by rewrite Ha].
    destruct (Logic.getGameResult (gboard (placed (state g) index)))
      as [r|] eqn:Hr; rewrite Hm.
    - cbn [State.updateScore State.setInactive gameActive gboard scores
           andb negb]. exists r. split; [done|].
      destruct r as [[[]|] l]; cbn; (split; [done|]);
        intros [[]|] Hw; done.
    - cbn [State.switchPlayer gameActive placed]. by rewrite Ha. }
  destruct e as [index| | |[]|[]|d];
    try exact (Hmove Hs); try done; rewrite Hs; cbn;
    by destruct (gameActive (state g)).
Qed.

(** X5. In a controller, whatever it has handled since its construction,
    an event that ends an active game ends it with a draw or with a win
    of the symbol whose turn it was, and leaves that symbol current. *)
Theorem win_credited_to_mover (loaded : option Scores)
    (es : list Game.event) (e : Game.event) :
  let g := reached loaded es in
  let g' := Game.step g e in
  gameActive (state g) = true →
  gameActive (state g') = false →
  ∃ r, Logic.getGameResult (gboard (state g')) = Some r ∧
       (winner r = WinnerMark (currentPlayer (state g)) ∨
        winner r = WinnerDraw) ∧
       currentPlayer (state g') = currentPlayer (state g).
Proof.
  cbv zeta. intros Hact Hend.
  assert (Logic.getGameResult (gboard (state (reached loaded es))) = None)
    as Hplay.
  { destruct (in_play_invariant loaded es) as (Hiff & _). by apply Hiff. }
  pose proof (step_state (reached loaded es) e) as Hs.
  set (g := reached loaded es) in *.
  assert (moveOutcome (state g) (state (Game.step g e)) →
          ∃ r, Logic.getGameResult (gboard (state (Game.step g e))) = Some r ∧
               (winner r = WinnerMark (currentPlayer (state g)) ∨
                winner r = WinnerDraw) ∧
               currentPlayer (state (Game.step g e)) = currentPlayer (state g))
    as Hmove.
  { intros [Heq|(index & Hi & Ha & Hm)]; [congruence|].
    destruct (UI.updateCell index);
      [|rewrite Hm in Hend; cbn in Hend; congruence].
    destruct (Logic.getGameResult (gboard (placed (state g) index)))
      as [r|] eqn:Hr; rewrite Hm in *.
    - exists r. split; [done|]. split; [|done].
      by apply (move_result (gboard (state g)) index).
    - cbn in Hend. congruence. }
  destruct e as [index| | |[]|[]|d];
    try exact (Hmove Hs); rewrite Hs in Hend; cbn in Hend; congruence.
Qed.

(** X5 at work: X takes the top row, cells 0, 1 and 2, while O plays
    cells 3 and 4; the last click ends an active game. *)
Lemma win_credited_to_mover_witness :
  gameActive (state (reached None
                       [Game.CellClick 0; Game.CellClick 3; Game.CellClick 1;
                        Game.CellClick 4])) = true ∧
  gameActive (state (Game.step
                       (reached None
                          [Game.CellClick 0; Game.CellClick 3;
                           Game.CellClick 1; Game.CellClick 4])
                       (Game.CellClick 2))) = false ∧
  ∃ r, Logic.getGameResult
         (gboard (state (Game.step
                           (reached None
                              [Game.CellClick 0; Game.CellClick 3;
                               Game.CellClick 1; Game.CellClick 4])
                           (Game.CellClick 2)))) = Some r ∧
       (winner r = WinnerMark
                     (currentPlayer
                        (state (reached None
                                  [Game.CellClick 0; Game.CellClick 3;
                                   Game.CellClick 1; Game.CellClick 4]))) ∨
        winner r = WinnerDraw) ∧
       currentPlayer (state (Game.step
                               (reached None
                                  [Game.CellClick 0; Game.CellClick 3;
                                   Game.CellClick 1; Game.CellClick 4])
                               (Game.CellClick 2)))
       = currentPlayer
           (state (reached None
                     [Game.CellClick 0; Game.CellClick 3; Game.CellClick 1;
                      Game.CellClick 4])).
Proof.
  split; [reflexivity|]. split; [reflexivity|].
  exact (win_credited_to_mover None
           [Game.CellClick 0; Game.CellClick 3; Game.CellClick 1;
            Game.CellClick 4]
           (Game.CellClick 2) eq_refl eq_refl).
Defined.

(** ** The cell that [findBestMove] returns *)

Section BestCell.

Implicit Types (b : board) (ai : AIPlayer).

(** The cell returned is an empty cell of the board. *)
Lemma findBestMove_null ai b (k : nat) b' :
  AI.findBestMove ai b = Some (Some k, b') → get b k = null.
Proof.
  rewrite findBestMove_eq. intros [= Hk _].
  pose proof (best_move_inv (moveScore ai b) b (length b)) as Hinv.
  cbv zeta in Hinv. fold (bestMoveOver (moveScore ai b) b) in Hinv.
  rewrite Hk in Hinv. by destruct Hinv as ((_ & ? & _) & _).
Qed.

(** A player with two distinct symbols finds a cell whenever one is
    empty. *)
Lemma findBestMove_some ai b (i : nat) :
  aiSymbol ai ≠ humanSymbol ai → get b i = null →
  ∃ k : nat, AI.findBestMove ai b = Some (Some k, b) ∧ get b k = null.
Proof.
  intros Hd Hi. rewrite findBestMove_eq.
  pose proof (best_move_inv (moveScore ai b) b (length b)) as Hinv.
  cbv zeta in Hinv. fold (bestMoveOver (moveScore ai b) b) in Hinv.
  destruct (bestMoveOver (moveScore ai b) b) as [s [k|]]; cbn [fst snd] in *.
  - exists k. split; [done|]. by destruct Hinv as ((_ & ? & _) & _).
  - destruct Hinv as (Hnone & _).
    destruct (moveScore_finite ai Hd b i) as [z Hz].
    rewrite Hnone in Hz; [done|by apply get_null_lt|done].
Qed.

End BestCell.

(** ** The player, the names, the board of nine cells *)

Section Setup.

Implicit Types (g : TicTacToeGame) (e : Game.event) (es : list Game.event).

Lemma game_invariant (Q : TicTacToeGame → Prop) (P : Game.event → Prop) :
  (∀ g e, P e → Q g → Q (Game.step g e)) →
  ∀ es g, Forall P es → Q g → Q (Game.run g es).
Proof.
  intros Hstep. induction es as [|e es IH]; intros g Hes Hg; [done|].
  apply Forall_cons in Hes as [He Hes]. rewrite run_cons. by apply IH, Hstep.
Qed.

(** No event but a start touches the configuration or the player. *)
Lemma step_config_ai g e :
  match e with
  | Game.StartGameClick _ => True
  | _ => config (Game.step g e) = config g ∧ ai (Game.step g e) = ai g
  end.
Proof.
  destruct e as [index| | |[]|[]|d]; cbn [Game.step]; try done.
  - by destruct (handleCellClick_outcome g index) as (_ & ? & ?).
  - by destruct (aiMoveTimeout_outcome g) as (_ & ? & ?).
  - unfold Game.resetGame. cbn [Game.withState state config].
    by match goal with |- context [if ?c then _ else _] => destruct c end.
Qed.

Lemma nineCells_emptyBoard : nineCells emptyBoard.
Proof.
  split; [done|]. intros i Hi. do 9 (destruct i as [|i]; [done|]). lia.
Qed.

(** A move into one of the nine cells leaves a board of nine cells. *)
Lemma nineCells_moved st (index : nat) st' :
  (index < 9)%nat → nineCells (gboard st) → movedAt st index st' →
  nineCells (gboard st').
Proof.
  intros Hi [Hlen Hcells] (_ & _ & Hm). rewrite updateCell_lt in Hm by done.
  assert (gboard st' = set (gboard st) index (str (currentPlayer st))) as ->.
  { by destruct (Logic.getGameResult (gboard (placed st index))); subst st'. }
  split; [rewrite length_set_lt; [done|lia]|].
  intros i Hi9. destruct (decide (index = i)) as [->|Hne].
  - by rewrite get_set_eq.
  - rewrite get_set_ne by done. by apply Hcells.
Qed.

(** On a board of nine cells, a click on a cell of the page and a timer
    that expires do nothing or move into one of the nine cells: the
    cell that [findBestMove] returns is a cell of the board. *)
Lemma step_on_page g e :
  clickInRange e → nineCells (gboard (state g)) →
  match e with
  | Game.CellClick _ | Game.AIMoveTimeout =>
      state (Game.step g e) = state g ∨
      ∃ index : nat, (index < 9)%nat ∧
                     movedAt (state g) index (state (Game.step g e))
  | _ => True
  end.
Proof.
  intros He [Hlen _]. destruct e as [index| | | | |]; try done; cbn [Game.step].
  - destruct (handleCellClick_outcome g index) as ([Heq|Hm] & _); [by left|].
    right. by exists index.
  - destruct (aiMoveTimeout_outcome g)
      as ([Heq|(player & k & b' & _ & Hf & Hm)] & _); [by left|].
    right. exists k. split; [|done].
    apply findBestMove_null, get_null_lt in Hf. lia.
Qed.

(** A property of the state of the game that the construction
    establishes and that moves into the nine cells and resets keep holds
    as long as the clicks are on the nine cells, and so does the board
    of nine cells. *)
Lemma state_invariant_on_page (P : GameState → Prop) :
  (∀ loaded, P (State.new loaded)) →
  (∀ st (index : nat) st',
     P st → (index < 9)%nat → movedAt st index st' → P st') →
  (∀ st, P st → P (State.reset st)) →
  (∀ st, P st → P (State.resetScores st)) →
  ∀ loaded es, Forall clickInRange es →
    nineCells (gboard (state (reached loaded es))) ∧
    P (state (reached loaded es)).
Proof.
  intros Hnew Hmove Hreset Hscores loaded es Hes. unfold reached.
  apply (game_invariant (λ g, nineCells (gboard (state g)) ∧ P (state g))
           clickInRange);
    [|done|split; [apply nineCells_emptyBoard|apply Hnew]].
  intros g e He [Hnine Hp]. pose proof (step_state g e) as Hs.
  pose proof (step_on_page g e He Hnine) as Hpage.
  assert ((state (Game.step g e) = state g ∨
           ∃ index : nat, (index < 9)%nat ∧
                          movedAt (state g) index (state (Game.step g e))) →
          nineCells (gboard (state (Game.step g e))) ∧
          P (state (Game.step g e))) as Hmoved.
  { intros [->|(k & Hk & Hm)]; [done|]. split.
    - by apply (nineCells_moved (state g) k).
    - by apply (Hmove (state g) k). }
  destruct e as [index| | |[]|[]|d]; try exact (Hmoved Hpage); rewrite Hs;
    try done.
  - split; [apply nineCells_emptyBoard|by apply Hreset].
  - split; [exact Hnine|by apply Hscores].
  - split; [apply nineCells_emptyBoard|by apply Hreset].
Qed.

End Setup.

(** The player a controller holds, all along. *)
Lemma player_invariant (loaded : option Scores) (es : list Game.event) :
  aiPlayer (config (reached loaded es)) = O ∧
  humanPlayer (config (reached loaded es)) = X ∧
  ai (reached loaded es)
  = match mode (config (reached loaded es)) with
    | ModeAI => Some theAI
    | ModePlayer => None
    end.
Proof.
  apply (game_invariant
           (λ g, aiPlayer (config g) = O ∧ humanPlayer (config g) = X ∧
                 ai g = match mode (config g) with
                        | ModeAI => Some theAI
                        | ModePlayer => None
                        end)
           (λ _, True)); [|by apply Forall_true|done].
  intros g e _ (Ha & Hh & Hai). pose proof (step_config_ai g e) as Hs.
  destruct e as [index| | |c|c|d]; [by destruct Hs as [-> ->] ..|].
  cbn [Game.step]. unfold Game.startGame.
  destruct (setupMode d); cbn; by rewrite ?Ha, ?Hh.
Qed.

(** X6. Whatever events a controller has handled since its construction,
    the computer's symbol is O and the human's is X, and the controller
    holds a computer player exactly in the mode against the computer; that
    player is the one with the symbols O and X, which differ. *)
Theorem controller_player_is_O (loaded : option Scores)
    (es : list Game.event) :
  let g := reached loaded es in
  aiPlayer (config g) = O ∧
  humanPlayer (config g) = X ∧
  ai g = match mode (config g) with
         | ModeAI => Some theAI
         | ModePlayer => None
         end ∧
  aiSymbol theAI ≠ humanSymbol theAI.
Proof.
  cbv zeta. destruct (player_invariant loaded es) as (Ha & Hh & Hai).
  by split_and!.
Qed.

(** X7. [startGame] never leaves a player without a name: an empty name
    for X becomes "Jogador X", a name typed is kept; O is named after
    the computer in the mode against it, and like X otherwise. It takes
    the mode from the setup, and touches neither the state of the game
    (board, turn, active flag, scores) nor the timers still to expire. *)
Theorem startGame_names (g : TicTacToeGame) (d : SetupData) :
  let g' := Game.startGame g d in
  nameX (config g')
  = (if bool_decide (playerXName d = "") then "Jogador X" else playerXName d) ∧
  nameO (config g')
  = match setupMode d with
    | ModeAI => "IA 🤖"
    | ModePlayer =>
        if bool_decide (playerOName d = "") then "Jogador O" else playerOName d
    end ∧
  nameX (config g') ≠ "" ∧
  nameO (config g') ≠ "" ∧
  mode (config g') = setupMode d ∧
  state g' = state g ∧
  pendingAIMoves g' = pendingAIMoves g.
Proof.
  cbv zeta. unfold Game.startGame.
  destruct (setupMode d); cbn; repeat case_bool_decide; by split_and!.
Qed.

(** X12. As long as the clicks are on the nine cells, whatever the other
    events, the board has nine cells, each empty or with a symbol: no
    event makes the board grow or leaves a hole in it. *)
Theorem board_stays_nine_cells (loaded : option Scores)
    (es : list Game.event) :
  Forall clickInRange es → nineCells (gboard (state (reached loaded es))).
Proof.
  intros Hes.
  by destruct (state_invariant_on_page (λ _, True)
                 (λ _, I) (λ _ _ _ _ _ _, I) (λ _ _, I) (λ _ _, I)
                 loaded es Hes).
Qed.

Lemma board_stays_nine_cells_witness :
  Forall clickInRange
    [Game.CellClick 4; Game.ResetClick; Game.CellClick 0;
     Game.BackToSetupClick false; Game.CellClick 8] ∧
  nineCells (gboard (state (reached None
                              [Game.CellClick 4; Game.ResetClick;
                               Game.CellClick 0; Game.BackToSetupClick false;
                               Game.CellClick 8]))).
Proof.
  assert (Forall clickInRange
            [Game.CellClick 4; Game.ResetClick; Game.CellClick 0;
             Game.BackToSetupClick false; Game.CellClick 8]) as Hes
    by (repeat constructor; cbn; lia).
  split; [exact Hes|].
  exact (board_stays_nine_cells None _ Hes).
Defined.

(** X2. As long as the clicks are on the nine cells, whatever the other
    events a controller has handled since its construction, X has as
    many marks on the board as O, or one more; while the game is active
    it is X's turn exactly when the two have as many, and once it has
    ended the current symbol is the one that moved last. *)
Theorem marks_alternate (loaded : option Scores) (es : list Game.event) :
  Forall clickInRange es →
  let st := state (reached loaded es) in
  let x := countMark X (gboard st) in
  let o := countMark O (gboard st) in
  (x = o ∨ x = S o) ∧
  (if gameActive st then currentPlayer st = X ↔ x = o
   else currentPlayer st = X ↔ x = S o).
Proof.
  intros Hes. cbv zeta.
  refine (proj2 (state_invariant_on_page
                   (λ st, (countMark X (gboard st) = countMark O (gboard st) ∨
                           countMark X (gboard st)
                           = S (countMark O (gboard st))) ∧
                          (if gameActive st
                           then currentPlayer st = X
                                ↔ countMark X (gboard st)
                                  = countMark O (gboard st)
                           else currentPlayer st = X
                                ↔ countMark X (gboard st)
                                  = S (countMark O (gboard st))))
                   _ _ _ _ loaded es Hes)).
  - intros l. cbn. split; [by left|done].
  - intros st index st' [Hc Ht] Hcell (Hi & Ha & Hm).
    rewrite updateCell_lt in Hm by done. rewrite Ha in Ht.
    assert (gboard (placed st index)
            = set (gboard st) index (str (currentPlayer st))) as Hb by done.
    pose proof (countMark_set (gboard st) index (currentPlayer st) X Hi) as Hx.
    pose proof (countMark_set (gboard st) index (currentPlayer st) O Hi) as Ho.
    rewrite <- Hb in Hx, Ho.
    assert (∀ r, gboard (State.updateScore
                           (State.setInactive (placed st index)) r)
                 = gboard (placed st index)) as Hend by done.
    destruct (currentPlayer st) eqn:Hcp.
    + assert (countMark X (gboard st) = countMark O (gboard st)) as Heq
        by (by apply Ht).
      rewrite bool_decide_eq_true_2 in Hx by done.
      rewrite bool_decide_eq_false_2 in Ho by done.
      destruct (Logic.getGameResult (gboard (placed st index))) as [r|];
        subst st'; rewrite ?Hend; cbn [State.switchPlayer gboard];
        rewrite Hx, Ho; cbn; rewrite ?Ha, ?Hcp;
        (split; [lia|split; intros; first [done|lia]]).
    + assert (countMark X (gboard st) = S (countMark O (gboard st))) as Heq.
      { destruct Hc as [Hc|Hc]; [|done]. by apply Ht in Hc. }
      rewrite bool_decide_eq_false_2 in Hx by done.
      rewrite bool_decide_eq_true_2 in Ho by done.
      destruct (Logic.getGameResult (gboard (placed st index))) as [r|];
        subst st'; rewrite ?Hend; cbn [State.switchPlayer gboard];
        rewrite Hx, Ho; cbn; rewrite ?Ha, ?Hcp;
        (split; [lia|split; intros; first [done|lia]]).
  - intros st _. cbn. split; [by left|done].
  - intros st H. exact H.
Qed.

(** X2 at work: X and O have played a cell each, the game has been
    reset, and X has played again. *)
Lemma marks_alternate_witness :
  Forall clickInRange
    [Game.CellClick 4; Game.CellClick 0; Game.ResetClick; Game.CellClick 8] ∧
  let st := state (reached None
                     [Game.CellClick 4; Game.CellClick 0; Game.ResetClick;
                      Game.CellClick 8]) in
  let x := countMark X (gboard st) in
  let o := countMark O (gboard st) in
  (x = o ∨ x = S o) ∧
  (if gameActive st then currentPlayer st = X ↔ x = o
   else currentPlayer st = X ↔ x = S o).
Proof.
  assert (Forall clickInRange
            [Game.CellClick 4; Game.CellClick 0; Game.ResetClick;
             Game.CellClick 8]) as Hes
    by (repeat constructor; cbn; lia).
  split; [exact Hes|].
  exact (marks_alternate None _ Hes).
Defined.

(** ** A session against the computer that is not reset *)

Section AISession.

Implicit Types (g : TicTacToeGame).

(** The test [isAITurn] in a session against the computer. *)
Ltac inv_done :=
  split_and?; try done; try (by apply emptyOnPage_set);
  first [by left | by right; left | by right; right].

Ltac ai_turn :=
  rewrite ?(bool_decide_eq_true_2 (ModeAI = ModeAI)),
    ?(bool_decide_eq_true_2 (O = O)),
    ?(bool_decide_eq_false_2 (X = O)) by done;
  cbn.

Lemma aiSessionInv_click g (index : nat) :
  (index < 9)%nat →
  aiSessionInv g → aiSessionInv (Game.handleCellClick g index).
Proof.
  intros Hcell. destruct g as [[m nx no ap hp] [b p a sc] player n].
  unfold aiSessionInv, gameOver, humanToMove, computerToMove. cbn.
  intros (-> & -> & -> & Hplay & Hpage & Hst).
  unfold Game.handleCellClick, Config.isAITurn, State.makeMove. cbn.
  rewrite (updateCell_lt index Hcell).
  destruct Hst as [(-> & ->)|[(-> & -> & ->)|(-> & -> & ->)]]; cbn.
  - destruct p; ai_turn; [|inv_done].
    rewrite orb_true_r. cbn. inv_done.
  - ai_turn. destruct (truthy (get b index)); cbn; [inv_done|].
    destruct (Logic.getGameResult (set b index (str X))) as [r|] eqn:Hr; cbn.
    + inv_done.
    + ai_turn. inv_done.
  - ai_turn. inv_done.
Qed.

Lemma aiSessionInv_timeout g :
  aiSessionInv g → aiSessionInv (Game.aiMoveTimeout g).
Proof.
  destruct g as [[m nx no ap hp] [b p a sc] player n].
  unfold aiSessionInv, gameOver, humanToMove, computerToMove. cbn.
  intros (-> & -> & -> & Hplay & Hpage & Hst).
  unfold Game.aiMoveTimeout. cbn.
  destruct Hst as [(-> & ->)|[(-> & -> & ->)|(-> & -> & ->)]]; cbn;
    [inv_done|inv_done|].
  unfold Game.aiMoveCallback. cbn.
  destruct (getGameResult_None b (Hplay eq_refl)) as [_ (i & _ & Hi)].
  destruct (findBestMove_some theAI b i) as (k & -> & Hk); [done|done|].
  unfold Game.applyBestMove, State.makeMove. cbn. rewrite Hk. cbn.
  rewrite (updateCell_lt k (Hpage k Hk)).
  destruct (Logic.getGameResult (set b k (str O))) as [r|] eqn:Hr; cbn.
  - inv_done.
  - inv_done.
Qed.

Lemma aiSessionInv_run (es : list Game.event) g :
  Forall playEvent es → aiSessionInv g → aiSessionInv (Game.run g es).
Proof.
  apply (game_invariant aiSessionInv playEvent).
  intros g' e He Hg. destruct e as [index| | | | |]; try done; cbn [Game.step].
  - by apply aiSessionInv_click.
  - by apply aiSessionInv_timeout.
Qed.

Lemma aiSession_inv loaded name : aiSessionInv (Game.aiSession loaded name).
Proof.
  unfold aiSessionInv, gameOver, humanToMove, computerToMove,
    Game.aiSession, Game.startGame. cbn.
  pose proof emptyOnPage_emptyBoard. inv_done.
Qed.

(** In the human's situation a click on an empty cell puts an X there. *)
Lemma humanToMove_click g (i : nat) :
  aiSessionInv g → humanToMove g → get (gboard (state g)) i = null →
  gboard (state (Game.handleCellClick g i))
  = set (gboard (state g)) i (str X).
Proof.
  destruct g as [[m nx no ap hp] [b p a sc] player n].
  unfold aiSessionInv, humanToMove. cbn.
  intros (-> & -> & -> & _) (-> & -> & ->) Hi.
  unfold Game.handleCellClick, Config.isAITurn, State.makeMove. cbn.
  ai_turn. rewrite Hi. cbn. destruct (UI.updateCell i); [|done].
  destruct (Logic.getGameResult (set b i (str X))); [done|]. by ai_turn.
Qed.

(** In the computer's situation the timer puts an O in an empty cell. *)
Lemma computerToMove_timeout g :
  aiSessionInv g → computerToMove g →
  ∃ k : nat,
    get (gboard (state g)) k = null ∧
    gboard (state (Game.aiMoveTimeout g))
    = set (gboard (state g)) k (str O) ∧
    pendingAIMoves (Game.aiMoveTimeout g) = 0%nat.
Proof.
  destruct g as [[m nx no ap hp] [b p a sc] player n].
  unfold aiSessionInv, computerToMove. cbn.
  intros (-> & -> & -> & Hplay & _) (-> & -> & ->).
  unfold Game.aiMoveTimeout, Game.aiMoveCallback. cbn.
  destruct (getGameResult_None b (Hplay eq_refl)) as [_ (i & _ & Hi)].
  destruct (findBestMove_some theAI b i) as (k & -> & Hk); [done|done|].
  exists k. split; [done|].
  unfold Game.applyBestMove, State.makeMove. cbn. rewrite Hk. cbn.
  destruct (UI.updateCell k); [|done].
  by destruct (Logic.getGameResult (set b k (str O))).
Qed.

End AISession.

(** X8. A session against the computer that handles only clicks on the
    nine cells and expiring timers is always in one of three situations.
    The game has ended and no timer is set. Or the game is active, it is
    X's turn, no timer is set, the board has an empty cell, and a click
    on any empty cell puts an X there. Or the game is active, it is O's
    turn, exactly one timer is set, and when it expires an O is put in
    an empty cell and no timer is left. The session is never left with
    a turn that nobody can take. *)
Theorem session_never_stuck (loaded : option Scores) (name : string)
    (es : list Game.event) :
  Forall playEvent es →
  let g := Game.run (Game.aiSession loaded name) es in
  let b := gboard (state g) in
  gameOver g ∨
  (humanToMove g ∧
   (∃ i : nat, get b i = null) ∧
   ∀ i : nat, get b i = null →
     gboard (state (Game.handleCellClick g i)) = set b i (str X)) ∨
  (computerToMove g ∧
   ∃ k : nat, get b k = null ∧
     gboard (state (Game.aiMoveTimeout g)) = set b k (str O) ∧
     pendingAIMoves (Game.aiMoveTimeout g) = 0%nat).
Proof.
  intros Hes. cbv zeta.
  pose proof (aiSessionInv_run es _ Hes (aiSession_inv loaded name)) as Hinv.
  set (g := Game.run (Game.aiSession loaded name) es) in *.
  pose proof Hinv as (_ & _ & _ & Hplay & _ & [Ho|[Hh|Hc]]).
  - by left.
  - right; left. split; [done|]. split.
    + destruct Hh as (_ & Ha & _).
      destruct (getGameResult_None _ (Hplay Ha)) as [_ (i & _ & Hi)].
      by exists i.
    + intros i Hi. by apply humanToMove_click.
  - right; right. split; [done|]. by apply computerToMove_timeout.
Qed.

Lemma session_never_stuck_witness :
  Forall playEvent [Game.CellClick 4; Game.AIMoveTimeout; Game.CellClick 4] ∧
  let g := Game.run (Game.aiSession None "")
             [Game.CellClick 4; Game.AIMoveTimeout; Game.CellClick 4] in
  let b := gboard (state g) in
  gameOver g ∨
  (humanToMove g ∧
   (∃ i : nat, get b i = null) ∧
   ∀ i : nat, get b i = null →
     gboard (state (Game.handleCellClick g i)) = set b i (str X)) ∨
  (computerToMove g ∧
   ∃ k : nat, get b k = null ∧
     gboard (state (Game.aiMoveTimeout g)) = set b k (str O) ∧
     pendingAIMoves (Game.aiMoveTimeout g) = 0%nat).
Proof.
  assert (Forall playEvent
            [Game.CellClick 4; Game.AIMoveTimeout; Game.CellClick 4]) as Hes
    by (repeat constructor; cbn; lia).
  split; [exact Hes|].
  exact (session_never_stuck None "" _ Hes).
Defined.

(** * The scores and the moves of the computer *)

Section ScoreBounds.

Variable ai : AIPlayer.
Hypothesis distinct : aiSymbol ai ≠ humanSymbol ai.

Implicit Types (b : board) (depth : Z) (isMax : bool).

Lemma checkGameState_null b :
  AI.checkGameState b = StateNull → ∃ i : nat, get b i = null.
Proof.
  unfold AI.checkGameState.
  destruct (AI.checkCombinations b AI.winningCombinations); [done|].
  destruct (every_not_null b) eqn:E; [done|]. intros _.
  apply every_not_null_false in E as (i & _ & Hi). by exists i.
Qed.

(** With at most ten levels from the depth to the full board, a score
    lies between [depth - 10] and [10 - depth], and strictly inside on a
    board still in play. *)
Lemma score_bounds (n : nat) : ∀ b depth isMax,
  (count_null b ≤ n)%nat → depth + Z.of_nat n ≤ 10 →
  ∃ z, minimaxScore ai depth isMax b = Fin z ∧
       depth - 10 ≤ z ≤ 10 - depth ∧
       (AI.checkGameState b = StateNull → depth - 9 ≤ z ≤ 9 - depth).
Proof.
  induction n as [|n IH]; intros b depth isMax Hn Hd;
    rewrite minimaxScore_unfold;
    destruct (AI.checkGameState b) as [m| |] eqn:E; cbn [AI.terminalScore].
  1, 4: repeat case_bool_decide;
    [eexists; split; [done|]; split; [lia|done] ..|];
    destruct m, (aiSymbol ai), (humanSymbol ai); congruence.
  1, 3: eexists; split; [done|]; split; [lia|done].
  - apply checkGameState_null in E as [i Hi].
    pose proof (count_null_set b i X Hi). lia.
  - destruct (checkGameState_null b E) as [i0 Hi0]. destruct isMax.
    + destruct (bestOver_max
                  (λ i, minimaxScore ai (depth + 1) false
                          (set b i (str (aiSymbol ai)))) b i0 Hi0)
        as [(i & Hi & <-) _].
      destruct (IH (set b i (str (aiSymbol ai))) (depth + 1) false)
        as (z & -> & Hz & _);
        [pose proof (count_null_set b i (aiSymbol ai) Hi); lia|lia|].
      exists z. split; [done|]. split; [lia|]. intros _. lia.
    + destruct (bestOver_min
                  (λ i, minimaxScore ai (depth + 1) true
                          (set b i (str (humanSymbol ai)))) b i0 Hi0)
        as [(i & Hi & <-) _].
      destruct (IH (set b i (str (humanSymbol ai))) (depth + 1) true)
        as (z & -> & Hz & _);
        [pose proof (count_null_set b i (humanSymbol ai) Hi); lia|lia|].
      exists z. split; [done|]. split; [lia|]. intros _. lia.
Qed.

End ScoreBounds.

(** X9. For a player with two distinct symbols, when the depth and the
    number of empty cells of the board add up to ten at most, as in every
    search that starts from a board of nine cells, [minimax] returns a
    number between [depth - 10] and [10 - depth], the scores of a lost
    and of a won board at that depth; on a board still in play the number
    lies between [depth - 9] and [9 - depth]: a win or a loss further
    down never counts as much as one at hand. *)
Theorem minimax_score_bounds (ai : AIPlayer) (depth : Z)
    (isMaximizing : bool) (b : board) :
  aiSymbol ai ≠ humanSymbol ai →
  depth + Z.of_nat (count_null b) ≤ 10 →
  ∃ z, AI.minimax ai depth isMaximizing b = Some (Fin z, b) ∧
       depth - 10 ≤ z ≤ 10 - depth ∧
       (Logic.getGameResult b = None → depth - 9 ≤ z ≤ 9 - depth).
Proof.
  intros Hd Hn.
  destruct (score_bounds ai Hd (count_null b) b depth isMaximizing)
    as (z & Hz & Hb & Hin); [lia|lia|].
  exists z. rewrite minimax_eq, Hz. split; [done|]. split; [done|].
  intros Hr. apply Hin. by rewrite checkGameState_getGameResult, Hr.
Qed.

Lemma minimax_score_bounds_witness :
  aiSymbol theAI ≠ humanSymbol theAI ∧
  1 + Z.of_nat (count_null
                  [str X; str O; null; null; str X; null; null; null; null])
  ≤ 10 ∧
  ∃ z, AI.minimax theAI 1 true
         [str X; str O; null; null; str X; null; null; null; null]
       = Some (Fin z, [str X; str O; null; null; str X; null; null; null; null])
       ∧ 1 - 10 ≤ z ≤ 10 - 1 ∧
       (Logic.getGameResult
          [str X; str O; null; null; str X; null; null; null; null] = None →
        1 - 9 ≤ z ≤ 9 - 1).
Proof.
  assert (1 + Z.of_nat (count_null
                          [str X; str O; null; null; str X; null; null; null;
                           null]) ≤ 10) as Hn by (vm_compute; discriminate).
  split; [done|]. split; [exact Hn|].
  exact (minimax_score_bounds theAI 1 true _ ltac:(done) Hn).
Defined.

Section WinningMoves.

Implicit Types (b : board) (m : mark) (f : nat → bool).

Lemma filter_seq_first f : ∀ (n s k : nat) rest,
  List.filter f (seq s n) = k :: rest →
  f k = true ∧ (s ≤ k < s + n)%nat ∧ ∀ j : nat, (s ≤ j < k)%nat → f j = false.
Proof.
  induction n as [|n IH]; intros s k rest; cbn [seq List.filter]; [done|].
  destruct (f s) eqn:Hs.
  - intros [= <- _]. split; [done|]. split; [lia|]. intros; lia.
  - intros H. apply IH in H as (Hk & Hr & Hbefore). split; [done|].
    split; [lia|]. intros j Hj. destruct (decide (j = s)) as [->|]; [done|].
    apply Hbefore. lia.
Qed.

Lemma filter_seq_In f (n j : nat) :
  In j (List.filter f (seq 0 n)) ↔ (j < n)%nat ∧ f j = true.
Proof. rewrite filter_In, in_seq. intuition lia. Qed.

(** What the rules engine returns, in terms of the lines of the board. *)
Lemma result_cases b :
  match Logic.getGameResult b with
  | Some {| winner := WinnerMark m |} =>
      ∃ t, t ∈ Logic.winningCombinations ∧ lineOf b m t
  | Some {| winner := WinnerDraw |} =>
      (∀ t, t ∈ Logic.winningCombinations → ¬ wins b t) ∧
      ∀ i : nat, get b i ≠ null
  | None =>
      (∀ t, t ∈ Logic.winningCombinations → ¬ wins b t) ∧
      ∃ i : nat, get b i = null
  end.
Proof.
  destruct (Logic.getGameResult b) as [[[m|] l]|] eqn:Hr.
  - by eapply getGameResult_win.
  - revert Hr. unfold Logic.getGameResult, Logic.checkWinner, Logic.checkDraw.
    pose proof (checkWinnerIn_spec b Logic.winningCombinations) as Hs.
    destruct (Logic.checkWinnerIn b Logic.winningCombinations) as [r|] eqn:E.
    + apply checkWinnerIn_mark in E as [m Hm]. by intros [= ->].
    + destruct (every_not_null b) eqn:Hfull; [|done]. intros _.
      split; [done|]. by apply every_not_null_true.
  - apply getGameResult_None in Hr as [Hno (i & _ & Hi)]. split; [done|].
    by exists i.
Qed.

(** On a board in play, a symbol wins at once in an empty cell exactly
    when the move completes a line of that symbol. *)
Lemma winsAfter_line b m (i : nat) :
  Logic.getGameResult b = None →
  winsAfter b m i = true
  ↔ get b i = null ∧
    ∃ t, t ∈ Logic.winningCombinations ∧ lineOf (set b i (str m)) m t.
Proof.
  intros Hb. unfold winsAfter. rewrite andb_true_iff, strict_eq_true.
  split; intros [Hi H]; (split; [done|]).
  - destruct (Logic.getGameResult (set b i (str m))) as [[[m'|] l]|] eqn:Hr;
      try done.
    apply bool_decide_eq_true in H as ->. by eapply getGameResult_win.
  - destruct H as (t & Ht & Hl).
    pose proof (result_cases (set b i (str m))) as Hc.
    destruct (Logic.getGameResult (set b i (str m))) as [[[m'|] l]|] eqn:Hr.
    + apply bool_decide_eq_true.
      destruct (move_result b i m _ Hb ltac:(by rewrite Hi) Hr) as [H|H];
        cbn in H; congruence.
    + destruct Hc as [Hno _]. destruct (Hno t Ht). by exists m.
    + destruct Hc as [Hno _]. destruct (Hno t Ht). by exists m.
Qed.

End WinningMoves.

Section Choice.

Variable ai : AIPlayer.
Hypothesis distinct : aiSymbol ai ≠ humanSymbol ai.

Implicit Types (b : board) (depth : Z) (isMax : bool).

Lemma score_of_win depth isMax b (m : mark) l :
  Logic.getGameResult b = Some {| winner := WinnerMark m; combination := l |} →
  minimaxScore ai depth isMax b
  = if bool_decide (m = aiSymbol ai) then Fin (10 - depth)
    else Fin (depth - 10).
Proof.
  intros Hr. rewrite minimaxScore_unfold, checkGameState_getGameResult, Hr.
  cbn. repeat case_bool_decide; try done.
  destruct m, (aiSymbol ai), (humanSymbol ai); congruence.
Qed.

Lemma score_of_draw depth isMax b l :
  Logic.getGameResult b = Some {| winner := WinnerDraw; combination := l |} →
  minimaxScore ai depth isMax b = Fin 0.
Proof.
  intros Hr. by rewrite minimaxScore_unfold, checkGameState_getGameResult, Hr.
Qed.

(** The score of a move is 10 at most, and 10 exactly for a move that
    wins at once. *)
Lemma moveScore_ten b (j : nat) :
  (count_null b ≤ 10)%nat → get b j = null →
  ∃ z, moveScore ai b j = Fin z ∧ -10 ≤ z ≤ 10 ∧
       (z = 10 ↔ winsAfter b (aiSymbol ai) j = true).
Proof.
  intros Hn Hj. unfold moveScore, winsAfter. rewrite Hj. cbn [strict_eq andb].
  pose proof (count_null_set b j (aiSymbol ai) Hj) as Hc.
  destruct (score_bounds ai distinct 9 (set b j (str (aiSymbol ai))) 0 false)
    as (z & Hz & Hb & Hin); [lia|lia|].
  exists z. split; [done|]. split; [lia|].
  destruct (Logic.getGameResult (set b j (str (aiSymbol ai))))
    as [[[m|] l]|] eqn:Hr.
  - rewrite (score_of_win _ _ _ m l Hr) in Hz.
    case_bool_decide; injection Hz as <-; split; intros; try done; lia.
  - rewrite (score_of_draw _ _ _ l Hr) in Hz. injection Hz as <-.
    split; intros; try done; lia.
  - assert (z ≤ 9) by (apply Hin; by rewrite checkGameState_getGameResult, Hr).
    split; intros; try done; lia.
Qed.

(** The result of [findBestMove] read off the scores of the moves. *)
Lemma findBestMove_by_scores b (c : nat) :
  get b c = null →
  (∀ j : nat, get b j = null → score_gt (moveScore ai b j) (moveScore ai b c) = false) →
  (∀ j : nat, (j < c)%nat → get b j = null →
              score_gt (moveScore ai b c) (moveScore ai b j) = true) →
  AI.findBestMove ai b = Some (Some c, b).
Proof.
  intros Hc Hmax Hfirst. rewrite findBestMove_eq.
  pose proof (best_move_inv (moveScore ai b) b (length b)) as Hinv.
  cbv zeta in Hinv. fold (bestMoveOver (moveScore ai b) b) in Hinv.
  destruct (bestMoveOver (moveScore ai b) b) as [s [k|]]; cbn [fst snd] in *.
  - destruct Hinv as ((Hk & Hnull & Hbefore) & Hle & ->).
    destruct (lt_eq_lt_dec k c) as [[Hlt| ->]|Hgt]; [|done|].
    + pose proof (Hfirst k Hlt Hnull) as H1.
      pose proof (Hle c (get_null_lt _ _ Hc) Hc) as H2.
      unfold score_le in H2. congruence.
    + pose proof (Hbefore c Hgt Hc) as H1.
      pose proof (Hmax k Hnull) as H2. congruence.
  - destruct Hinv as (Hnone & _).
    destruct (moveScore_finite ai distinct b c) as [z Hz].
    rewrite Hnone in Hz; [done|by apply get_null_lt|done].
Qed.

End Choice.

(** X10. For a player with two distinct symbols and a board with ten
    empty cells at most, when there are cells where the player's symbol
    wins at once, [findBestMove] returns the first of them. *)
Theorem takes_first_winning_move (ai : AIPlayer) (b : board) (k : nat)
    (rest : list nat) :
  aiSymbol ai ≠ humanSymbol ai →
  (count_null b ≤ 10)%nat →
  winningMoves b (aiSymbol ai) = k :: rest →
  AI.findBestMove ai b = Some (Some k, b).
Proof.
  intros Hd Hn Hw. apply filter_seq_first in Hw as (Hk & _ & Hbefore).
  assert (get b k = null) as Hnull.
  { unfold winsAfter in Hk. apply andb_true_iff in Hk as [Hk _].
    by apply strict_eq_true. }
  destruct (moveScore_ten ai Hd b k Hn Hnull) as (zk & Hzk & _ & Hten).
  assert (zk = 10) as -> by (by apply Hten).
  apply findBestMove_by_scores; [done|done| |].
  - intros j Hj. destruct (moveScore_ten ai Hd b j Hn Hj) as (z & -> & Hz & _).
    rewrite Hzk. cbn. destruct (Z.gtb_spec z 10); [lia|done].
  - intros j Hlt Hj.
    destruct (moveScore_ten ai Hd b j Hn Hj) as (z & -> & Hz & Hten').
    rewrite Hzk. cbn. destruct (Z.gtb_spec 10 z); [done|].
    assert (z = 10) as Hz10 by lia. apply Hten' in Hz10.
    rewrite Hbefore in Hz10; [done|lia].
Qed.

Lemma takes_first_winning_move_witness :
  aiSymbol theAI ≠ humanSymbol theAI ∧
  (count_null [str O; str X; str X; null; str O; null; str X; null; null]
   ≤ 10)%nat ∧
  winningMoves [str O; str X; str X; null; str O; null; str X; null; null]
    (aiSymbol theAI) = [8%nat] ∧
  AI.findBestMove theAI
    [str O; str X; str X; null; str O; null; str X; null; null]
  = Some (Some 8%nat,
          [str O; str X; str X; null; str O; null; str X; null; null]).
Proof.
  assert (count_null
            [str O; str X; str X; null; str O; null; str X; null; null]
          ≤ 10)%nat as Hn by (vm_compute; lia).
  split; [done|]. split; [exact Hn|]. split; [reflexivity|].
  exact (takes_first_winning_move theAI _ 8 [] ltac:(done) Hn eq_refl).
Defined.

Section Block.

Variable ai : AIPlayer.
Hypothesis distinct : aiSymbol ai ≠ humanSymbol ai.

Variable b : board.
Variable c : nat.
Hypothesis few : (count_null b ≤ 10)%nat.
Hypothesis inPlay : Logic.getGameResult b = None.
Hypothesis noWin : winningMoves b (aiSymbol ai) = [].
Hypothesis oneThreat : winningMoves b (humanSymbol ai) = [c].

Lemma lineOf_mono (b1 b2 : board) (m : mark) t :
  (∀ x : nat, get b1 x = str m → get b2 x = str m) →
  lineOf b1 m t → lineOf b2 m t.
Proof. destruct t as [[x y] z]. intros H (? & ? & ?). repeat split; auto. Qed.

Lemma no_win_at (j : nat) :
  get b j = null → winsAfter b (aiSymbol ai) j = false.
Proof.
  intros Hj. destruct (winsAfter b (aiSymbol ai) j) eqn:E; [|done].
  assert (In j (winningMoves b (aiSymbol ai))) as Hin
    by (apply filter_seq_In; split; [by apply get_null_lt|done]).
  by rewrite noWin in Hin.
Qed.

Lemma threat_at : winsAfter b (humanSymbol ai) c = true ∧ get b c = null.
Proof.
  assert (In c (winningMoves b (humanSymbol ai))) as Hin
    by (rewrite oneThreat; by left).
  apply filter_seq_In in Hin as [_ Hw]. split; [done|].
  unfold winsAfter in Hw. apply andb_true_iff in Hw as [Hw _].
  by apply strict_eq_true.
Qed.

Lemma no_threat_at (j : nat) :
  get b j = null → j ≠ c → winsAfter b (humanSymbol ai) j = false.
Proof.
  intros Hj Hne. destruct (winsAfter b (humanSymbol ai) j) eqn:E; [|done].
  assert (In j (winningMoves b (humanSymbol ai))) as Hin
    by (apply filter_seq_In; split; [by apply get_null_lt|done]).
  rewrite oneThreat in Hin. destruct Hin as [->|[]]. done.
Qed.

(** After a move of the player that does not win, with a cell still
    empty, the board is in play. *)
Lemma after_quiet_move (j i : nat) :
  get b j = null → get (set b j (str (aiSymbol ai))) i = null →
  Logic.getGameResult (set b j (str (aiSymbol ai))) = None.
Proof.
  intros Hj Hi. pose proof (no_win_at j Hj) as Hw.
  pose proof (result_cases (set b j (str (aiSymbol ai)))) as Hc.
  destruct (Logic.getGameResult (set b j (str (aiSymbol ai))))
    as [[[m|] l]|] eqn:Hr; [| |done].
  - destruct (move_result b j _ _ inPlay ltac:(by rewrite Hj) Hr) as [H|H];
      [|done]. cbn in H. injection H as ->.
    assert (winsAfter b (aiSymbol ai) j = true); [|congruence].
    by apply winsAfter_line.
  - destruct Hc as [_ Hfull]. by destruct (Hfull i).
Qed.

(** A move that leaves the threat open scores -9: the human wins at
    the next move. *)
Lemma moveScore_unblocked (j : nat) :
  get b j = null → j ≠ c → moveScore ai b j = Fin (-9).
Proof.
  intros Hj Hne. destruct threat_at as [Hthreat Hc].
  pose proof (count_null_set b j (aiSymbol ai) Hj) as Hcount.
  set (b1 := set b j (str (aiSymbol ai))) in *.
  assert (get b1 c = null) as Hc1 by (unfold b1; by rewrite get_set_ne).
  assert (Logic.getGameResult b1 = None) as Hr1
    by (by apply (after_quiet_move j c)).
  unfold moveScore. fold b1.
  rewrite minimaxScore_unfold, checkGameState_getGameResult, Hr1.
  cbn [resultState AI.terminalScore].
  destruct (bestOver_min
              (λ i, minimaxScore ai (0 + 1) true
                      (set b1 i (str (humanSymbol ai)))) b1 c Hc1)
    as [(i0 & Hi0 & Hs) Hle].
  set (s := bestOver score_min PosInf _ b1) in *.
  assert (minimaxScore ai (0 + 1) true (set b1 c (str (humanSymbol ai)))
          = Fin (-9)) as Hchild.
  { apply (winsAfter_line b _ c inPlay) in Hthreat as (_ & t & Ht & Hl).
    assert (lineOf (set b1 c (str (humanSymbol ai))) (humanSymbol ai) t) as Hl2.
    { revert Hl. apply lineOf_mono. intros x Hx.
      destruct (decide (x = c)) as [->|Hxc]; [by rewrite get_set_eq|].
      rewrite get_set_ne in Hx by done. rewrite get_set_ne by done.
      unfold b1. rewrite get_set_ne; [done|]. intros ->. congruence. }
    pose proof (result_cases (set b1 c (str (humanSymbol ai)))) as Hcases.
    destruct (Logic.getGameResult (set b1 c (str (humanSymbol ai))))
      as [[[m|] l]|] eqn:Hr2.
    - destruct (move_result b1 c _ _ Hr1 ltac:(by rewrite Hc1) Hr2) as [H|H];
        [|done]. cbn in H. injection H as ->.
      rewrite (score_of_win ai distinct _ _ _ _ l Hr2).
      by rewrite bool_decide_eq_false_2 by done.
    - destruct Hcases as [Hno _]. destruct (Hno t Ht). by eexists.
    - destruct Hcases as [Hno _]. destruct (Hno t Ht). by eexists. }
  pose proof (Hle c Hc1) as Hlow. cbv beta in Hlow. rewrite Hchild in Hlow.
  pose proof (count_null_set b1 i0 (humanSymbol ai) Hi0) as Hcount0.
  destruct (score_bounds ai distinct 8 (set b1 i0 (str (humanSymbol ai)))
              (0 + 1) true) as (z & Hz & Hb & _); [lia|lia|].
  cbv beta in Hs. rewrite Hz in Hs. rewrite <- Hs in *.
  unfold score_le in Hlow. cbn in Hlow.
  destruct (Z.gtb_spec z (-9)); [done|]. f_equal. lia.
Qed.

(** The move into the cell of the threat scores -8 at least. *)
Lemma moveScore_blocked :
  ∃ z, moveScore ai b c = Fin z ∧ -8 ≤ z.
Proof.
  destruct threat_at as [Hthreat Hc].
  pose proof (count_null_set b c (aiSymbol ai) Hc) as Hcount.
  set (b1 := set b c (str (aiSymbol ai))) in *.
  pose proof (no_win_at c Hc) as Hw.
  unfold moveScore. fold b1.
  pose proof (result_cases b1) as Hcases.
  destruct (Logic.getGameResult b1) as [[[m|] l]|] eqn:Hr1.
  - destruct (move_result b c _ _ inPlay ltac:(by rewrite Hc) Hr1) as [H|H];
      [|done]. cbn in H. injection H as ->.
    assert (winsAfter b (aiSymbol ai) c = true); [|congruence].
    apply winsAfter_line; [done|]. split; [done|]. exact Hcases.
  - rewrite (score_of_draw ai _ _ _ l Hr1). exists 0. split; [done|lia].
  - destruct Hcases as [_ [i1 Hi1]].
    rewrite minimaxScore_unfold, checkGameState_getGameResult, Hr1.
    cbn [resultState AI.terminalScore].
    destruct (bestOver_min
                (λ i, minimaxScore ai (0 + 1) true
                        (set b1 i (str (humanSymbol ai)))) b1 i1 Hi1)
      as [(i0 & Hi0 & <-) _].
    unfold emptyCell in Hi0.
    assert (i0 ≠ c) as Hne.
    { intros Heq. rewrite Heq in Hi0. subst b1.
      by rewrite get_set_eq in Hi0. }
    assert (get b i0 = null) as Hb0
      by (unfold b1 in Hi0; by rewrite get_set_ne in Hi0).
    pose proof (count_null_set b1 i0 (humanSymbol ai) Hi0) as Hcount0.
    set (b2 := set b1 i0 (str (humanSymbol ai))) in *.
    pose proof (result_cases b2) as Hcases2.
    destruct (Logic.getGameResult b2) as [[[m|] l]|] eqn:Hr2.
    + exfalso.
      destruct (move_result b1 i0 _ _ Hr1 ltac:(by rewrite Hi0) Hr2) as [H|H];
        [|done]. cbn in H. injection H as ->.
      destruct Hcases2 as (t & Ht & Hl).
      assert (winsAfter b (humanSymbol ai) i0 = true) as Hwin;
        [|by rewrite no_threat_at in Hwin].
      apply winsAfter_line; [done|]. split; [done|]. exists t. split; [done|].
      revert Hl. apply lineOf_mono. intros x Hx.
      destruct (decide (x = i0)) as [->|Hxi]; [by rewrite get_set_eq|].
      unfold b2 in Hx. rewrite get_set_ne in Hx by done.
      rewrite get_set_ne by done. unfold b1 in Hx.
      destruct (decide (x = c)) as [->|Hxc].
      * rewrite get_set_eq in Hx. congruence.
      * by rewrite get_set_ne in Hx.
    + rewrite (score_of_draw ai _ _ _ l Hr2). exists 0. split; [done|lia].
    + destruct (score_bounds ai distinct 8 b2 (0 + 1) true)
        as (z & Hz & _ & Hin); [lia|lia|].
      exists z. split; [done|].
      assert (0 + 1 - 9 ≤ z ≤ 9 - (0 + 1)); [|lia].
      apply Hin. by rewrite checkGameState_getGameResult, Hr2.
Qed.

Lemma blocks_threat : AI.findBestMove ai b = Some (Some c, b).
Proof.
  destruct threat_at as [_ Hc].
  destruct moveScore_blocked as (z & Hz & Hz8).
  apply findBestMove_by_scores; [done|done| |].
  - intros j Hj. destruct (decide (j = c)) as [->|Hne].
    + rewrite Hz. cbn. destruct (Z.gtb_spec z z); [lia|done].
    + rewrite (moveScore_unblocked j Hj Hne), Hz. cbn.
      destruct (Z.gtb_spec (-9) z); [lia|done].
  - intros j Hlt Hj. rewrite (moveScore_unblocked j Hj), Hz by lia. cbn.
    destruct (Z.gtb_spec z (-9)); [done|lia].
Qed.

End Block.

(** X11. For a player with two distinct symbols, on a board in play with
    ten empty cells at most, when the player cannot win at once and the
    opponent would win at once in exactly one cell, [findBestMove]
    returns that cell: the computer blocks the threat. *)
Theorem blocks_single_threat (ai : AIPlayer) (b : board) (c : nat) :
  aiSymbol ai ≠ humanSymbol ai →
  (count_null b ≤ 10)%nat →
  Logic.getGameResult b = None →
  winningMoves b (aiSymbol ai) = [] →
  winningMoves b (humanSymbol ai) = [c] →
  AI.findBestMove ai b = Some (Some c, b).
Proof.
  intros Hd Hn Hp Hw Ht. exact (blocks_threat ai Hd b c Hn Hp Hw Ht).
Qed.

Lemma blocks_single_threat_witness :
  aiSymbol theAI ≠ humanSymbol theAI ∧
  (count_null [str X; str X; null; null; str O; null; null; null; null]
   ≤ 10)%nat ∧
  Logic.getGameResult
    [str X; str X; null; null; str O; null; null; null; null] = None ∧
  winningMoves [str X; str X; null; null; str O; null; null; null; null]
    (aiSymbol theAI) = [] ∧
  winningMoves [str X; str X; null; null; str O; null; null; null; null]
    (humanSymbol theAI) = [2%nat] ∧
  AI.findBestMove theAI
    [str X; str X; null; null; str O; null; null; null; null]
  = Some (Some 2%nat,
          [str X; str X; null; null; str O; null; null; null; null]).
Proof.
  assert (count_null [str X; str X; null; null; str O; null; null; null; null]
          ≤ 10)%nat as Hn by (vm_compute; lia).
  split; [done|]. split; [exact Hn|].
  split; [reflexivity|]. split; [reflexivity|]. split; [reflexivity|].
  exact (blocks_single_threat theAI _ 2 ltac:(done) Hn eq_refl eq_refl eq_refl).
Defined.

(** * Sessions of two players, scores over time, lines on the board *)

Section More.

Implicit Types (g : TicTacToeGame) (st : GameState) (e : Game.event)
  (es : list Game.event).

(** An active game of a controller has a board in play. *)
Lemma reached_in_play loaded es :
  gameActive (state (reached loaded es)) = true →
  Logic.getGameResult (gboard (state (reached loaded es))) = None.
Proof.
  intros Ha. destruct (in_play_invariant loaded es) as (Hiff & _).
  by apply Hiff.
Qed.

Lemma twoPlayer_step g e :
  notStart e →
  mode (config g) = ModePlayer ∧ pendingAIMoves g = 0%nat →
  mode (config (Game.step g e)) = ModePlayer ∧
  pendingAIMoves (Game.step g e) = 0%nat.
Proof.
  destruct g as [[m nx no ap hp] [b p a sc] player n]. cbn.
  intros He [-> ->].
  destruct e as [index| | |[]|[]|d]; try done; cbn.
  unfold Game.handleCellClick, Config.isAITurn, State.makeMove. cbn.
  destruct (truthy (get b index) || negb a); [done|]. cbn.
  destruct (UI.updateCell index); [|done].
  by destruct (Logic.getGameResult _).
Qed.

Lemma twoPlayer_click g (i : nat) :
  mode (config g) = ModePlayer →
  gameActive (state g) = true → get (gboard (state g)) i = null →
  gboard (state (Game.handleCellClick g i))
  = set (gboard (state g)) i (str (currentPlayer (state g))).
Proof.
  destruct g as [[m nx no ap hp] [b p a sc] player n]. cbn.
  intros -> -> Hi.
  unfold Game.handleCellClick, Config.isAITurn, State.makeMove. cbn.
  rewrite Hi. cbn. destruct (UI.updateCell i); [|done].
  by destruct (Logic.getGameResult _).
Qed.

Lemma movedAt_scoresLe st (index : nat) st' :
  movedAt st index st' → scoresLe (scores st) (scores st').
Proof.
  intros (_ & _ & Hm). unfold scoresLe.
  destruct (UI.updateCell index); [|subst st'; cbn; lia].
  destruct (Logic.getGameResult (gboard (placed st index))) as [[[[]|] l]|];
    subst st'; cbn; lia.
Qed.

End More.

(** X13. In a session of two players, whatever clicks (at any index),
    timers, resets, score resets and returns to the setup it handles, no
    move of the computer is ever scheduled; an active game has an empty
    cell, and a click on an empty cell of an active game puts the
    current symbol there, so the game can always go on, also after a
    reset. *)
Theorem two_player_session (loaded : option Scores) (d : SetupData)
    (es : list Game.event) :
  setupMode d = ModePlayer →
  Forall notStart es →
  let g := reached loaded (Game.StartGameClick d :: es) in
  let b := gboard (state g) in
  pendingAIMoves g = 0%nat ∧
  ai g = None ∧
  (gameActive (state g) = true → ∃ i : nat, get b i = null) ∧
  ∀ i : nat,
    gameActive (state g) = true → get b i = null →
    gboard (state (Game.handleCellClick g i))
    = set b i (str (currentPlayer (state g))) ∧
    pendingAIMoves (Game.handleCellClick g i) = 0%nat.
Proof.
  intros Hd Hes. cbv zeta.
  assert (mode (config (reached loaded (Game.StartGameClick d :: es)))
          = ModePlayer ∧
          pendingAIMoves (reached loaded (Game.StartGameClick d :: es))
          = 0%nat) as [Hmode Hpending].
  { unfold reached. rewrite run_cons.
    apply (game_invariant
             (λ g, mode (config g) = ModePlayer ∧ pendingAIMoves g = 0%nat)
             notStart); [|done|].
    - intros g e He Hg. by apply twoPlayer_step.
    - cbn. unfold Game.startGame. by rewrite Hd. }
  split; [done|]. split.
  { destruct (player_invariant loaded (Game.StartGameClick d :: es))
      as (_ & _ & ->). by rewrite Hmode. }
  split.
  - intros Ha. apply reached_in_play in Ha.
    apply getGameResult_None in Ha as [_ (i & _ & Hi)]. by exists i.
  - intros i Ha Hi. split; [by apply twoPlayer_click|].
    apply (twoPlayer_step _ (Game.CellClick i)); done.
Qed.

Lemma two_player_session_witness :
  setupMode {| setupMode := ModePlayer; playerXName := "Ana";
               playerOName := "" |} = ModePlayer ∧
  Forall notStart [Game.CellClick 4; Game.ResetClick; Game.CellClick 0] ∧
  let g := reached None
             (Game.StartGameClick
                {| setupMode := ModePlayer; playerXName := "Ana";
                   playerOName := "" |}
              :: [Game.CellClick 4; Game.ResetClick; Game.CellClick 0]) in
  let b := gboard (state g) in
  pendingAIMoves g = 0%nat ∧
  ai g = None ∧
  (gameActive (state g) = true → ∃ i : nat, get b i = null) ∧
  ∀ i : nat,
    gameActive (state g) = true → get b i = null →
    gboard (state (Game.handleCellClick g i))
    = set b i (str (currentPlayer (state g))) ∧
    pendingAIMoves (Game.handleCellClick g i) = 0%nat.
Proof.
  assert (Forall notStart [Game.CellClick 4; Game.ResetClick; Game.CellClick 0])
    as Hes by (repeat constructor).
  split; [reflexivity|]. split; [exact Hes|].
  exact (two_player_session None
           {| setupMode := ModePlayer; playerXName := "Ana";
              playerOName := "" |} _ eq_refl Hes).
Defined.

(** X14. Over any sequence of events without a confirmed reset of the
    scores, from any controller, no counter of the scores goes down. *)
Theorem scores_never_decrease (g : TicTacToeGame) (es : list Game.event) :
  Forall keepsScores es →
  scoresLe (scores (state g)) (scores (state (Game.run g es))).
Proof.
  intros Hes.
  apply (game_invariant
           (λ g', scoresLe (scores (state g)) (scores (state g')))
           keepsScores); [|done|unfold scoresLe; lia].
  intros g' e He Hle. pose proof (step_state g' e) as Hs.
  assert (moveOutcome (state g') (state (Game.step g' e)) →
          scoresLe (scores (state g)) (scores (state (Game.step g' e))))
    as Hmove.
  { intros [->|(index & Hm)]; [done|].
    apply movedAt_scoresLe in Hm. unfold scoresLe in *. lia. }
  destruct e as [index| | |[]|[]|d]; try done; auto; by rewrite Hs.
Qed.

Lemma scores_never_decrease_witness :
  Forall keepsScores
    [Game.CellClick 0; Game.CellClick 3; Game.CellClick 1; Game.CellClick 4;
     Game.CellClick 2; Game.ResetClick; Game.ResetScoreClick false] ∧
  scoresLe (scores (state (Game.new (Some {| scoreX := 2; scoreO := 1;
                                              scoreDraw := 5 |}))))
    (scores (state (Game.run
                      (Game.new (Some {| scoreX := 2; scoreO := 1;
                                         scoreDraw := 5 |}))
                      [Game.CellClick 0; Game.CellClick 3; Game.CellClick 1;
                       Game.CellClick 4; Game.CellClick 2; Game.ResetClick;
                       Game.ResetScoreClick false]))).
Proof.
  assert (Forall keepsScores
            [Game.CellClick 0; Game.CellClick 3; Game.CellClick 1;
             Game.CellClick 4; Game.CellClick 2; Game.ResetClick;
             Game.ResetScoreClick false]) as Hes by (repeat constructor).
  split; [exact Hes|].
  exact (scores_never_decrease _ _ Hes).
Defined.

(** X15. Whatever events a controller has handled since its construction,
    every line of three equal symbols on its board, in any of the eight
    triples, is a line of the current symbol, and the game is then over:
    the two symbols never both have a line, so the winner that the rules
    engine reports does not depend on the order of the triples. *)
Theorem lines_belong_to_winner (loaded : option Scores)
    (es : list Game.event) (t : nat * nat * nat) (m : mark) :
  let st := state (reached loaded es) in
  t ∈ Logic.winningCombinations →
  lineOf (gboard st) m t →
  gameActive st = false ∧ m = currentPlayer st.
Proof.
  cbv zeta. revert t m.
  apply (state_invariant
           (λ st, ∀ t m, t ∈ Logic.winningCombinations →
                         lineOf (gboard st) m t →
                         gameActive st = false ∧ m = currentPlayer st)).
  - intros l [[x y] z] m _ (Hx & _). cbn in Hx. unfold get in Hx.
    do 9 (destruct x as [|x]; [done|]). done.
  - intros st st' Hst [->|(index & Hi & Ha & Hm)] t m Ht Hl;
      [by apply (Hst t m)|].
    destruct (updateCell_cases index) as [[Hcell Hu]|[Hcell Hu]];
      rewrite Hu in Hm; cycle 1.
    { subst st'. cbn [placed gboard] in Hl.
      apply lineOf_off_page in Hl; [|done|done].
      destruct (Hst t m Ht Hl) as [Hover _]. congruence. }
    assert (gboard st' = set (gboard st) index (str (currentPlayer st)) ∧
            currentPlayer st' = (if gameActive st' then
                                   otherMark (currentPlayer st)
                                 else currentPlayer st)) as [Hb Hp].
    { destruct (Logic.getGameResult (gboard (placed st index)));
        subst st'; cbn; [done|]. rewrite Ha. by destruct (currentPlayer st). }
    destruct (Logic.getGameResult (gboard (placed st index))) as [r|] eqn:Hr.
    + assert (gameActive st' = false) as Hend by (by subst st').
      rewrite Hend in Hp. split; [done|]. rewrite Hp, Hb in *.
      apply lineOf_set in Hl as [Hl|Hl]; [|done|done].
      destruct (Hst t m Ht Hl). congruence.
    + apply getGameResult_None in Hr as [Hno _]. destruct (Hno t Ht).
      exists m. by rewrite Hb in Hl.
  - intros st _ [[x y] z] m _ (Hx & _). cbn in Hx. unfold get in Hx.
    do 9 (destruct x as [|x]; [done|]). done.
  - intros st Hst. exact Hst.
Qed.

Lemma lines_belong_to_winner_witness :
  (0, 1, 2)%nat ∈ Logic.winningCombinations ∧
  lineOf (gboard (state (reached None
                           [Game.CellClick 0; Game.CellClick 3;
                            Game.CellClick 1; Game.CellClick 4;
                            Game.CellClick 2]))) X (0, 1, 2)%nat ∧
  gameActive (state (reached None
                       [Game.CellClick 0; Game.CellClick 3; Game.CellClick 1;
                        Game.CellClick 4; Game.CellClick 2])) = false ∧
  X = currentPlayer (state (reached None
                              [Game.CellClick 0; Game.CellClick 3;
                               Game.CellClick 1; Game.CellClick 4;
                               Game.CellClick 2])).
Proof.
  assert ((0, 1, 2)%nat ∈ Logic.winningCombinations) as Ht by (by left).
  assert (lineOf (gboard (state (reached None
                                   [Game.CellClick 0; Game.CellClick 3;
                                    Game.CellClick 1; Game.CellClick 4;
                                    Game.CellClick 2]))) X (0, 1, 2)%nat)
    as Hl by (by repeat split).
  split; [exact Ht|]. split; [exact Hl|].
  exact (lines_belong_to_winner None _ _ X Ht Hl).
Defined.
